(** * notify: a command-line toast notification utility (main.go)

    A shallow embedding of the single-file Go program: the argument
    parser of [main], the icon rasteriser [createIcon], and the
    dispatcher [displayNotification], followed by the properties the
    specification states about them.

    Go strings are byte sequences and are modelled as [string] (a list of
    [ascii] bytes); Go's [int] is the 64-bit integer of the amd64 target
    selected by build.bat and is modelled as [Z]; slices are lists,
    indexed with stdpp's lookup; the [iconData] map is a [gmap]. *)

From Stdlib Require Import ZArith Ascii String Bool Lia.
From stdpp Require Import base gmap strings list.

Local Open Scope Z_scope.

(** ** Library functions of package strings *)

Module Strings.

(** strings.HasPrefix(s, prefix) *)
Definition HasPrefix (s pre : string) : bool := String.prefix pre s.

(** s[n:] *)
Fixpoint sliceFrom (n : nat) (s : string) : string :=
  match n, s with
  | O, _ => s
  | S _, EmptyString => EmptyString
  | S n', String _ s' => sliceFrom n' s'
  end.

(** strings.TrimPrefix(s, prefix): s without the leading prefix, or s
    itself when it does not start with prefix. *)
Definition TrimPrefix (s pre : string) : string :=
  if HasPrefix s pre then sliceFrom (String.length pre) s else s.

Definition byteVal (c : ascii) : N := N_of_ascii c.

(** 'A' <= c && c <= 'Z' *)
Definition isUpperByte (c : ascii) : bool :=
  ((65 <=? byteVal c) && (byteVal c <=? 90))%N.

(** c += 'a' - 'A' on an upper-case byte *)
Definition lowerByte (c : ascii) : ascii :=
  if isUpperByte c then ascii_of_N (byteVal c + 32) else c.

(** c < utf8.RuneSelf for every byte of s *)
Fixpoint isASCII (s : string) : bool :=
  match s with
  | EmptyString => true
  | String c s' => (byteVal c <? 128)%N && isASCII s'
  end.

Fixpoint hasUpper (s : string) : bool :=
  match s with
  | EmptyString => false
  | String c s' => isUpperByte c || hasUpper s'
  end.

Fixpoint mapBytes (f : ascii -> ascii) (s : string) : string :=
  match s with
  | EmptyString => EmptyString
  | String c s' => String (f c) (mapBytes f s')
  end.

Section ToLower.
(** [strings.Map(unicode.ToLower, s)], the path strings.ToLower takes
    on a string holding a byte >= 0x80.  It depends on the Unicode
    case tables of the Go runtime, which are no part of this
    repository, and is taken as a parameter. *)
Variable mapUnicodeLower : string -> string.

(** strings.ToLower: an ASCII-only string is lowered byte by byte (and
    returned as it is when it has no upper-case byte); any other
    string goes through the Unicode mapping. *)
Definition ToLower (s : string) : string :=
  if isASCII s then
    if hasUpper s then mapBytes lowerByte s else s
  else mapUnicodeLower s.
End ToLower.

(** strings.Title on ASCII input: a byte is upper-cased when the byte
    before it is a separator (the string starts after a space), and
    every ASCII byte that is no letter, digit or underscore is a
    separator.  [main] applies it only to a type that passed validation,
    one of four lower-case ASCII words. *)
Definition isLowerByte (c : ascii) : bool :=
  ((97 <=? byteVal c) && (byteVal c <=? 122))%N.

(** unicode.ToTitle on an ASCII byte *)
Definition upperByte (c : ascii) : ascii :=
  if isLowerByte c then ascii_of_N (byteVal c - 32) else c.

(** isSeparator on an ASCII byte *)
Definition isSeparator (c : ascii) : bool :=
  negb (isLowerByte c || isUpperByte c
        || ((48 <=? byteVal c) && (byteVal c <=? 57))%N
        || (byteVal c =? 95)%N).

Fixpoint titleFrom (prevSep : bool) (s : string) : string :=
  match s with
  | EmptyString => EmptyString
  | String c s' =>
      String (if prevSep then upperByte c else c) (titleFrom (isSeparator c) s')
  end.

Definition Title (s : string) : string := titleFrom true s.

End Strings.

(** ** strconv.Atoi *)

Module Strconv.

Definition maxInt : Z := 2 ^ 63 - 1.
Definition minInt : Z := - 2 ^ 63.

(** ch -= '0'; ch > 9 is a syntax error (the subtraction wraps in
    uint8, so a byte below '0' also lands above 9). *)
Definition digitVal (c : ascii) : option Z :=
  let d := (Z.of_N (Strings.byteVal c) - 48) mod 256 in
  if 9 <? d then None else Some d.

(** n = n*10 + int(ch) over the bytes, failing on the first non-digit. *)
Fixpoint digits (acc : Z) (s : string) : option Z :=
  match s with
  | EmptyString => Some acc
  | String c s' =>
      match digitVal c with
      | None => None
      | Some d => digits (acc * 10 + d) s'
      end
  end.

Definition isSign (c : ascii) : bool :=
  (Strings.byteVal c =? 45)%N || (Strings.byteVal c =? 43)%N.

Definition isMinus (c : ascii) : bool := (Strings.byteVal c =? 45)%N.

(** Sign and magnitude of a decimal literal; [None] is a syntax error
    (empty string, lone sign, or a byte that is no decimal digit). *)
Definition signMagnitude (s : string) : option (bool * Z) :=
  match s with
  | EmptyString => None
  | String c rest =>
      let body := if isSign c then rest else s in
      match body with
      | EmptyString => None
      | _ =>
          match digits 0 body with
          | None => None
          | Some n => Some (isMinus c, n)
          end
      end
  end.

(** strconv.Atoi with intSize = 64.  Strings of 1 to 18 bytes take the
    fast path, where the value always fits; longer ones go through
    ParseInt(s, 10, 0), which in addition reports a range error when
    the value does not fit in an int.  [None] stands for err != nil. *)
Definition Atoi (s : string) : option Z :=
  let sLen := String.length s in
  if ((0 <? sLen) && (sLen <? 19))%nat then
    match signMagnitude s with
    | None => None
    | Some (neg, n) => Some (if neg then - n else n)
    end
  else
    match signMagnitude s with
    | None => None
    | Some (neg, n) =>
        let v := if neg then - n else n in
        if (minInt <=? v) && (v <=? maxInt) then Some v else None
    end.

End Strconv.

(** ** The argument parser of [main] *)

(** The local variables of [main] that the parse loop assigns. *)
Record ParseState := mkParseState {
  notificationType : string;
  timeout : Z;
  autoClose : bool;
  customTitle : string;
  message : string
}.

(** // Default values *)
Definition defaults : ParseState :=
  {| notificationType := "info"; timeout := 5; autoClose := true;
     customTitle := ""; message := "" |}.

Definition setType (st : ParseState) (v : string) : ParseState :=
  {| notificationType := v; timeout := timeout st; autoClose := autoClose st;
     customTitle := customTitle st; message := message st |}.

Definition setTitle (st : ParseState) (v : string) : ParseState :=
  {| notificationType := notificationType st; timeout := timeout st;
     autoClose := autoClose st; customTitle := v; message := message st |}.

Definition setTimeout (st : ParseState) (v : Z) : ParseState :=
  {| notificationType := notificationType st; timeout := v;
     autoClose := autoClose st; customTitle := customTitle st;
     message := message st |}.

Definition setAutoClose (st : ParseState) (v : bool) : ParseState :=
  {| notificationType := notificationType st; timeout := timeout st;
     autoClose := v; customTitle := customTitle st; message := message st |}.

Definition setMessage (st : ParseState) (v : string) : ParseState :=
  {| notificationType := notificationType st; timeout := timeout st;
     autoClose := autoClose st; customTitle := customTitle st; message := v |}.

(** if val, err := strconv.Atoi(s); err == nil { timeout = val } *)
Definition assignTimeout (st : ParseState) (s : string) : ParseState :=
  match Strconv.Atoi s with
  | Some val => setTimeout st val
  | None => st
  end.

(** How the parse loop can end: the loop condition fails ([LoopDone]),
    a help token calls os.Exit(0) ([LoopHelp]), an index expression is
    out of range and the runtime panics ([LoopPanic]), or the iteration
    budget of the model is used up ([LoopFuel]). *)
Inductive LoopResult :=
| LoopDone (st : ParseState)
| LoopHelp
| LoopPanic
| LoopFuel.

(** What one iteration of the loop body does: leave the loop for good
    ([Stop]) or [continue] with a new index and state ([Next]). *)
Inductive Step :=
| Stop (r : LoopResult)
| Next (i : nat) (st : ParseState).

(** arg == "--help" || arg == "-help" || arg == "-h" *)
Definition isHelp (arg : string) : bool :=
  String.eqb arg "--help" || String.eqb arg "-help" || String.eqb arg "-h".

Definition isTypeFlag (arg : string) : bool :=
  String.eqb arg "--type" || String.eqb arg "-type".

Definition isTitleFlag (arg : string) : bool :=
  String.eqb arg "--title" || String.eqb arg "-title".

Definition isTimeoutFlag (arg : string) : bool :=
  String.eqb arg "--timeout" || String.eqb arg "-timeout".

Definition isAutoCloseFlag (arg : string) : bool :=
  String.eqb arg "--autoclose" || String.eqb arg "-autoclose".

Section Parser.
Variable mapUnicodeLower : string -> string.

(** func parseBool(s string) bool *)
Definition parseBool (s : string) : bool :=
  String.eqb (Strings.ToLower mapUnicodeLower s) "true".

(** The body of the [for i < len(args)] loop of [main], entered with
    i < len(args).  [args !! i] is the index expression [args[i]], a
    runtime panic when it is out of range.  The index is a natural
    number: [i] starts at 0, only grows, and stays within len(args),
    far from the overflow of a 64-bit int.  A flag that takes a value
    and has none after it falls through to the tests below it, as the
    nested [if] of the source does. *)
Definition step (args : list string) (i : nat) (st : ParseState) : Step :=
  match args !! i with
  | None => Stop LoopPanic
  | Some arg =>
    if isHelp arg then Stop LoopHelp
    else if Strings.HasPrefix arg "--type=" then
      Next (i + 1) (setType st (Strings.TrimPrefix arg "--type="))
    else if isTypeFlag arg && (i + 1 <? length args)%nat then
      match args !! (i + 1)%nat with
      | None => Stop LoopPanic
      | Some v => Next (i + 2) (setType st v)
      end
    else if Strings.HasPrefix arg "--title=" then
      Next (i + 1) (setTitle st (Strings.TrimPrefix arg "--title="))
    else if isTitleFlag arg && (i + 1 <? length args)%nat then
      match args !! (i + 1)%nat with
      | None => Stop LoopPanic
      | Some v => Next (i + 2) (setTitle st v)
      end
    else if Strings.HasPrefix arg "--timeout=" then
      Next (i + 1) (assignTimeout st (Strings.TrimPrefix arg "--timeout="))
    else if isTimeoutFlag arg && (i + 1 <? length args)%nat then
      match args !! (i + 1)%nat with
      | None => Stop LoopPanic
      | Some v => Next (i + 2) (assignTimeout st v)
      end
    else if Strings.HasPrefix arg "--autoclose=" then
      Next (i + 1)
           (setAutoClose st (parseBool (Strings.TrimPrefix arg "--autoclose=")))
    else if isAutoCloseFlag arg && (i + 1 <? length args)%nat then
      match args !! (i + 1)%nat with
      | None => Stop LoopPanic
      | Some v => Next (i + 2) (setAutoClose st (parseBool v))
      end
    else if negb (Strings.HasPrefix arg "-") then
      Next (i + 1) (setMessage st arg)
    else Next (i + 1) st
  end.

(** The loop itself, one iteration per unit of fuel. *)
Fixpoint loop (fuel : nat) (args : list string) (i : nat)
         (st : ParseState) : LoopResult :=
  if negb (i <? length args)%nat then LoopDone st else
  match fuel with
  | O => LoopFuel
  | S fuel' =>
      match step args i st with
      | Stop r => r
      | Next i' st' => loop fuel' args i' st'
      end
  end.

(** The whole loop, entered at index 0 with the state [st]; every
    iteration advances the index, so len(args) iterations suffice
    (see [loop_total]). *)
Definition parseFrom (st : ParseState) (args : list string) : LoopResult :=
  loop (length args) args 0 st.

Definition parseArgs (args : list string) : LoopResult :=
  parseFrom defaults args.

End Parser.

(** ** The icon rasteriser *)

(** color.RGBA: four uint8 channels. *)
Record RGBA := mkRGBA { R : Z; G : Z; B : Z; A : Z }.

(** The value type of the [iconData] map. *)
Record IconEntry := mkIconEntry { Color : RGBA; Symbol : string }.

(** var iconData = map[string]struct{ Color color.RGBA; Symbol string } *)
Definition iconData : gmap string IconEntry :=
  <["success" := mkIconEntry (mkRGBA 46 204 113 255) "✓"]>
  (<["error" := mkIconEntry (mkRGBA 231 76 60 255) "✗"]>
  (<["info" := mkIconEntry (mkRGBA 52 152 219 255) "ℹ"]>
  (<["warning" := mkIconEntry (mkRGBA 241 196 15 255) "⚠"]> ∅))).

(** The zero value a Go map index expression yields for a missing key. *)
Definition zeroEntry : IconEntry := mkIconEntry (mkRGBA 0 0 0 0) "".

(** data, ok := iconData[nType]; if !ok { data = iconData["info"] } *)
Definition iconEntryFor (nType : string) : IconEntry :=
  match iconData !! nType with
  | Some data => data
  | None => default zeroEntry (iconData !! "info")
  end.

(** image.RGBA over the rectangle (0,0)-(MaxX,MaxY): [Pix] holds the
    channels of the pixels row by row, four bytes a pixel, [Stride]
    bytes a row. *)
Record Image := mkImage { Pix : list Z; Stride : Z; MaxX : Z; MaxY : Z }.

(** image.NewRGBA(image.Rect(0, 0, w, h)) *)
Definition NewRGBA (w h : Z) : Image :=
  {| Pix := replicate (Z.to_nat (4 * w * h)) 0; Stride := 4 * w;
     MaxX := w; MaxY := h |}.

(** image.Point{x, y}.In(img.Rect) *)
Definition inRect (img : Image) (x y : Z) : bool :=
  (0 <=? x) && (x <? MaxX img) && (0 <=? y) && (y <? MaxY img).

(** img.PixOffset(x, y) *)
Definition PixOffset (img : Image) (x y : Z) : Z := y * Stride img + x * 4.

(** img.Set(x, y, c) for a c that is a color.RGBA already: a point
    outside the rectangle is left alone, otherwise the four channel
    bytes at the pixel's offset are overwritten. *)
Definition SetRGBA (img : Image) (x y : Z) (c : RGBA) : Image :=
  if inRect img x y then
    let i := Z.to_nat (PixOffset img x y) in
    {| Pix := <[(i + 3)%nat := A c]> (<[(i + 2)%nat := B c]>
                (<[(i + 1)%nat := G c]> (<[i := R c]> (Pix img))));
       Stride := Stride img; MaxX := MaxX img; MaxY := MaxY img |}
  else img.

(** img.RGBAAt(x, y): the zero colour outside the rectangle. *)
Definition RGBAAt (img : Image) (x y : Z) : RGBA :=
  if inRect img x y then
    let i := Z.to_nat (PixOffset img x y) in
    let px := fun k => default 0 (Pix img !! (i + k)%nat) in
    mkRGBA (px 0%nat) (px 1%nat) (px 2%nat) (px 3%nat)
  else mkRGBA 0 0 0 0.

Definition size : Z := 64.
Definition center : Z := size / 2.
Definition radius : Z := size / 2 - 4.

(** color.RGBA{R: 0, G: 0, B: 0, A: 0} *)
Definition transparent : RGBA := mkRGBA 0 0 0 0.

(** The body of the inner loop of [createIcon]. *)
Definition drawPixel (c : RGBA) (y : Z) (img : Image) (x : Z) : Image :=
  let dx := x - center in
  let dy := y - center in
  let distance := dx * dx + dy * dy in
  if distance <=? radius * radius then SetRGBA img x y c
  else SetRGBA img x y transparent.

(** for x := 0; x < size; x++ { ... } *)
Definition drawRow (c : RGBA) (img : Image) (y : Z) : Image :=
  foldl (drawPixel c y) img (seqZ 0 size).

(** for y := 0; y < size; y++ { ... } over a fresh 64x64 image *)
Definition drawIcon (c : RGBA) : Image :=
  foldl (drawRow c) (NewRGBA size size) (seqZ 0 size).

(** The raster [createIcon] encodes for the type [nType]. *)
Definition iconImage (nType : string) : Image :=
  drawIcon (Color (iconEntryFor nType)).

(** ** The outside world *)

(** The values of toast.Duration and toast.Audio the program uses;
    [AudioZero] is the zero value the struct literal leaves in the
    Audio field. *)
Inductive toastDuration := Short | Long.
Inductive toastAudio := AudioZero | Default | Silent.

(** toast.Notification, with the fields the program sets. *)
Record Toast := mkToast {
  AppID : string;
  ToastTitle : string;
  ToastMessage : string;
  Icon : string;
  Duration : toastDuration;
  ActivationType : string;
  ActivationArguments : string;
  Audio : toastAudio
}.

(** A Go [error] value, by its message; [None] is nil. *)
Definition error := option string.

(** What the operating system answers.  Each function gives the error
    (or nil) of one call; [TempDir] and [Join] are os.TempDir() and
    filepath.Join. *)
Record Env := mkEnv {
  TempDir : string;
  Join : string -> string -> string;
  osCreate : string -> error;
  pngEncode : string -> Image -> error;
  toastPush : Toast -> error;
  osRemove : string -> error
}.

(** The calls the program makes on the outside world, in order. *)
Inductive Event :=
| EvCreate (path : string)
| EvEncode (path : string) (img : Image)
| EvClose (path : string)
| EvPush (t : Toast)
| EvSleep (ms : Z)
| EvRemove (path : string).

(** A computation that appends to the log of events. *)
Definition IO (A : Type) : Type := list Event -> A * list Event.

#[global] Instance IO_ret : MRet IO := fun A a log => (a, log).

#[global] Instance IO_bind : MBind IO :=
  fun A B k c log => let '(a, log') := c log in k a log'.

(** One call on the outside world: it is logged, and [a] is its answer. *)
Definition emit {A} (e : Event) (a : A) : IO A := fun log => (a, log ++ [e]).

Definition run {A} (c : IO A) : A * list Event := c [].

(** The notification [main] hands to the dispatcher. *)
Record Notification := mkNotification {
  Type_ : string;
  Title : string;
  Message : string;
  Timeout : Z;
  AutoClose : bool
}.

Section Dispatcher.
Variable env : Env.

(** func createIcon(nType string) (string, error) *)
Definition createIcon (nType : string) : IO (string * error) :=
  let img := iconImage nType in
  let tempDir := TempDir env in
  let iconPath := Join env tempDir ("notify_icon_" +:+ nType +:+ ".png") in
  err ← emit (EvCreate iconPath) (osCreate env iconPath);
  match err with
  | Some e => mret ("", Some e)
  | None =>
      err ← emit (EvEncode iconPath img) (pngEncode env iconPath img);
      _ ← emit (EvClose iconPath) tt;
      match err with
      | Some e => mret ("", Some e)
      | None => mret (iconPath, None)
      end
  end.

(** func getIconPath(nType string) (string, error) *)
Definition getIconPath (nType : string) : IO (string * error) :=
  r ← createIcon nType;
  match snd r with
  | Some e => mret ("", Some e)
  | None => mret (fst r, None)
  end.

(** switch n.Type { case "success", "error", "warning": ... default: ... } *)
Definition audioFor (nType : string) : toastAudio :=
  if String.eqb nType "success" || String.eqb nType "error"
     || String.eqb nType "warning"
  then Default else Silent.

Definition withAudio (t : Toast) (a : toastAudio) : Toast :=
  {| AppID := AppID t; ToastTitle := ToastTitle t;
     ToastMessage := ToastMessage t; Icon := Icon t; Duration := Duration t;
     ActivationType := ActivationType t;
     ActivationArguments := ActivationArguments t; Audio := a |}.

Definition withDuration (t : Toast) (d : toastDuration) : Toast :=
  {| AppID := AppID t; ToastTitle := ToastTitle t;
     ToastMessage := ToastMessage t; Icon := Icon t; Duration := d;
     ActivationType := ActivationType t;
     ActivationArguments := ActivationArguments t; Audio := Audio t |}.

(** The toast.Notification as it stands when Push is called. *)
Definition buildToast (n : Notification) (iconPath : string) : Toast :=
  let notification :=
    {| AppID := "Notify CLI"; ToastTitle := Title n;
       ToastMessage := Message n; Icon := iconPath; Duration := Short;
       ActivationType := "protocol"; ActivationArguments := "dismiss";
       Audio := AudioZero |} in
  let notification := withAudio notification (audioFor (Type_ n)) in
  if negb (AutoClose n) then withDuration notification Long
  else notification.

(** func displayNotification(n *Notification) error *)
Definition displayNotification (n : Notification) : IO error :=
  r ← getIconPath (Type_ n);
  let iconPath := match snd r with Some _ => "" | None => fst r end in
  let notification := buildToast n iconPath in
  err ← emit (EvPush notification) (toastPush env notification);
  match err with
  | Some e => mret (Some e)
  | None =>
      _ ← emit (EvSleep 500) tt;
      _ ← (if negb (String.eqb iconPath "")
            then emit (EvRemove iconPath) (osRemove env iconPath)
            else mret None);
      mret None
  end.

End Dispatcher.

(** ** [main] *)

Definition nl : string := String "010"%char EmptyString.
Definition dq : string := String "034"%char EmptyString.

Definition unlines (ls : list string) : string :=
  foldr (fun l acc => l +:+ nl +:+ acc) "" ls.

(** The raw string literal [showHelp] prints. *)
Definition helpText : string :=
  unlines [
    "notify - A CLI notification utility";
    "";
    "Usage:";
    "  notify MESSAGE [OPTIONS]";
    "";
    "Arguments:";
    "  MESSAGE             The notification message (positional argument)";
    "";
    "Options:";
    "  --title TITLE       Custom title for the notification (default: based on type)";
    "  --type TYPE         Type of notification: success, error, info, warning (default: info)";
    "  --timeout SECONDS   Timeout in seconds (default: 5)";
    "  --autoclose BOOLEAN Auto close after timeout (default: true)";
    "  --help              Show this help message";
    "";
    "Examples:";
    "  notify " +:+ dq +:+ "Operation completed successfully" +:+ dq +:+ " --type success";
    "  notify " +:+ dq +:+ "An error occurred" +:+ dq +:+ " --type error --timeout 10";
    "  notify " +:+ dq +:+ "Build done" +:+ dq +:+ " --title " +:+ dq +:+ "My App" +:+ dq +:+ " --type success";
    "  notify " +:+ dq +:+ "Download started" +:+ dq +:+ " --title " +:+ dq +:+ "Downloader" +:+ dq +:+ " --type info --autoclose false"
  ].

(** fmt.Println(s) *)
Definition Println (s : string) : string := s +:+ nl.

(** What showHelp() writes to standard output. *)
Definition showHelp : string := Println helpText.

Definition messageRequired : string :=
  Println "Message is required as a positional argument".

(** fmt.Printf of the invalid-type line, with t for its %s *)
Definition invalidType (t : string) : string :=
  "Invalid notification type: " +:+ t
  +:+ ". Valid types are: success, error, info, warning" +:+ nl.

(** fmt.Printf of the dispatch-error line, with err for its %v *)
Definition displayError (e : string) : string :=
  "Error displaying notification: " +:+ e +:+ nl.

Definition validTypes : list string := ["success"; "error"; "info"; "warning"].

(** The [for _, t := range validTypes] search. *)
Definition isValidType (t : string) : bool :=
  existsb (String.eqb t) validTypes.

(** How the process ends: os.Exit(code) or a return from [main]
    (code 0), a runtime panic, or a model run that used up its fuel. *)
Inductive Termination :=
| Exited (code : Z)
| Panicked
| OutOfFuel.

(** One run of the program: what it wrote to standard output, the calls
    it made on the outside world, and how it ended. *)
Record Outcome := mkOutcome {
  stdout : string;
  calls : list Event;
  termination : Termination
}.

(** What [main] does with the parsed values before it dispatches: the
    two checks, each ending the process with a message and exit code 1
    ([inl]), or the Notification it builds ([inr]). *)
Definition validate (st : ParseState) : string + Notification :=
  if String.eqb (message st) "" then inl (messageRequired +:+ showHelp)
  else if negb (isValidType (notificationType st)) then
    inl (invalidType (notificationType st))
  else
    let title :=
      if String.eqb (customTitle st) ""
      then Strings.Title (notificationType st) else customTitle st in
    inr {| Type_ := notificationType st; Title := title;
           Message := message st; Timeout := timeout st;
           AutoClose := autoClose st |}.

Section Main.
Variable mapUnicodeLower : string -> string.
Variable env : Env.

(** The part of [main] after the parse loop. *)
Definition finish (st : ParseState) : Outcome :=
  match validate st with
  | inl out => mkOutcome out [] (Exited 1)
  | inr notification =>
      let '(err, log) := run (displayNotification env notification) in
      match err with
      | Some e => mkOutcome (displayError e) log (Exited 1)
      | None => mkOutcome "" log (Exited 0)
      end
  end.

(** func main(), on args = os.Args[1:] *)
Definition main (args : list string) : Outcome :=
  match parseArgs mapUnicodeLower args with
  | LoopHelp => mkOutcome showHelp [] (Exited 0)
  | LoopPanic => mkOutcome "" [] Panicked
  | LoopFuel => mkOutcome "" [] OutOfFuel
  | LoopDone st => finish st
  end.

(** The Notification [main] builds, when it gets that far. *)
Definition request (args : list string) : option Notification :=
  match parseArgs mapUnicodeLower args with
  | LoopDone st =>
      match validate st with
      | inr notification => Some notification
      | inl _ => None
      end
  | _ => None
  end.

End Main.

(** * The vocabulary of the specification *)

(** The loop ended the way the source intends: by its condition or at a
    help token, not by a panic. *)
Definition terminated (r : LoopResult) : Prop :=
  r = LoopHelp \/ exists st, r = LoopDone st.

(** A flag that consumes the token after it as its value. *)
Definition takesValue (arg : string) : bool :=
  isTypeFlag arg || isTitleFlag arg || isTimeoutFlag arg || isAutoCloseFlag arg.

(** The tokens of an argument vector that do not start with a dash and
    are not the value of a flag, in order: the value after a
    value-taking flag is consumed with it, any other dash token is
    passed over, every other token is positional. *)
Fixpoint positionals (args : list string) : list string :=
  match args with
  | [] => []
  | arg :: rest =>
      if takesValue arg then
        match rest with
        | [] => []
        | _ :: rest' => positionals rest'
        end
      else if Strings.HasPrefix arg "-" then positionals rest
      else arg :: positionals rest
  end.

(** Equality of two byte strings up to the case of the ASCII letters:
    the case-insensitive comparison of the specification. *)
Fixpoint equalFold (s t : string) : bool :=
  match s, t with
  | EmptyString, EmptyString => true
  | String a s', String b t' =>
      Ascii.eqb (Strings.lowerByte a) (Strings.lowerByte b) && equalFold s' t'
  | _, _ => false
  end.

(** ** Sample environments *)

(** os.TempDir and filepath.Join of a plain installation. *)
Definition sampleJoin (dir name : string) : string := dir +:+ "/" +:+ name.

(** Every call on the outside world succeeds. *)
Definition envAllOk : Env :=
  {| TempDir := "C:/Temp"; Join := sampleJoin;
     osCreate := fun _ => None; pngEncode := fun _ _ => None;
     toastPush := fun _ => None; osRemove := fun _ => None |}.

(** The notification service refuses the toast. *)
Definition envPushFails : Env :=
  {| TempDir := "C:/Temp"; Join := sampleJoin;
     osCreate := fun _ => None; pngEncode := fun _ _ => None;
     toastPush := fun _ => Some "toast unavailable";
     osRemove := fun _ => None |}.

(** The scratch directory is not writable. *)
Definition envCreateFails : Env :=
  {| TempDir := "C:/Temp"; Join := sampleJoin;
     osCreate := fun _ => Some "access denied"; pngEncode := fun _ _ => None;
     toastPush := fun _ => None; osRemove := fun _ => None |}.

(** The icon file cannot be deleted. *)
Definition envRemoveFails : Env :=
  {| TempDir := "C:/Temp"; Join := sampleJoin;
     osCreate := fun _ => None; pngEncode := fun _ _ => None;
     toastPush := fun _ => None; osRemove := fun _ => Some "file in use" |}.

(** ** Icons *)

(** The colour the inner loop of [createIcon] gives the pixel (x, y). *)
Definition pixelColor (c : RGBA) (x y : Z) : RGBA :=
  if (x - center) * (x - center) + (y - center) * (y - center)
     <=? radius * radius
  then c else transparent.

(** The palette of the specification: the colour of each of the four
    categories, and the colour of info for any other string. *)
Definition specColor (nType : string) : RGBA :=
  if String.eqb nType "success" then mkRGBA 46 204 113 255
  else if String.eqb nType "error" then mkRGBA 231 76 60 255
  else if String.eqb nType "warning" then mkRGBA 241 196 15 255
  else mkRGBA 52 152 219 255.

(** An image as image.NewRGBA makes it: rows of four bytes a pixel, and
    a pixel buffer that covers the rectangle. *)
Definition wfImage (img : Image) : Prop :=
  0 <= MaxX img /\ 0 <= MaxY img /\ Stride img = 4 * MaxX img /\
  length (Pix img) = Z.to_nat (4 * MaxX img * MaxY img).

(** ** Dispatch *)

(** The toasts pushed and the files removed, in the order of the log. *)
Definition pushes (log : list Event) : list Toast :=
  omap (fun e => match e with EvPush t => Some t | _ => None end) log.

Definition removes (log : list Event) : list string :=
  omap (fun e => match e with EvRemove p => Some p | _ => None end) log.

(** The path [createIcon] writes the icon of a type to. *)
Definition iconPathFor (env : Env) (nType : string) : string :=
  Join env (TempDir env) ("notify_icon_" +:+ nType +:+ ".png").

(** The same request with another timeout. *)
Definition withTimeout (n : Notification) (z : Z) : Notification :=
  {| Type_ := Type_ n; Title := Title n; Message := Message n;
     Timeout := z; AutoClose := AutoClose n |}.

(** The request of: notify "Build complete" --type success *)
Definition sampleRequest : Notification :=
  {| Type_ := "success"; Title := "Success"; Message := "Build complete";
     Timeout := 5; AutoClose := true |}.

(** ** The embedded icon *)

(** The base64 text of the one entry of [embeddedIcons]. *)
Definition embeddedSuccess : string :=
  "iVBORw0KGgoAAAANSUhEUgAAAEAAAABACAYAAACqaXHeAAABhUlEQVR4Xu2YsU7D" +:+
  "MBCGv0lZQAKI7xCU2aJsACZgDZYNGMFrG4AN2AAbgA3gAV2oSRqFpCRqivYKvED8" +:+
  "SK3s+mb+xf/dyA/yjN//B/gHHoD7+/v7ASb4+/t7QPVtAHP+PxUA+QXw9/f3B3jf" +:+
  "FJCWwD+A/v6+wI7n5+fnBPB9fqT+Avi/v7//AHB/f2cB6TsB5QU0wP39/X8B9/f3" +:+
  "F5C8Afj+/v4C0PQEwAfwYQvIAugF7u/vLwD9BQH39/cXkCZJAPXzAVL1BQXQAHB/" +:+
  "f38BKVoKQP0ZgPj+BiYg+YMAykvIBJAXeT8BvAYkCygeQOqC4h6oAXi/v7+ANHd+" +:+
  "fn4CyAJ4BbQC+xMBvEcAyQJIAugFaAXsTwTwEJC8gfASkNdgfhvAdHuLXsBdRNMX" +:+
  "QH4D6Q3MvweQ/18Dkn1A8QfEL8D9/f0FJHkB94WlB9A+wPsEYCggNICyA+J7uL+/" +:+
  "vwDS+gC1VUAd6gEIDaB8AM0DwBsEpCkgRKEB5QfQugAdo1oA/wLqfQDjAnwGeL2/" +:+
  "v7+A0gC6BmhGkK4BdArgNqDZAnoBaQOdALYG0QHKANICSCsgKYBMALcG0gzIDkgp" +:+
  "IE0ArQkYXYDeBJYgAPd/+2KOfwCbAONbQHkE5QAAAABJRU5ErkJggg==".

(** var embeddedIcons = map[string]string{ "success": ... } *)
Definition embeddedIcons : gmap string string :=
  <["success" := embeddedSuccess]> ∅.

(** The call os.WriteFile(path, data, perm). *)
Inductive FileWrite := WriteFile (path data : string) (perm : Z).

(** What [getEmbeddedIconPath] needs beyond [Env]:
    base64.StdEncoding.DecodeString, which gives the bytes or an error,
    and the answer of os.WriteFile. *)
Record EmbedEnv := mkEmbedEnv {
  DecodeString : string -> string + string;
  osWriteFile : string -> string -> Z -> error
}.

(** func getEmbeddedIconPath(nType string) (string, error): the result
    and the file writes made.  A missing key yields the entry of
    success; 0644 is 420. *)
Definition getEmbeddedIconPath (env : Env) (eenv : EmbedEnv) (nType : string)
  : (string * error) * list FileWrite :=
  let data := match embeddedIcons !! nType with
              | Some data => data
              | None => default "" (embeddedIcons !! "success")
              end in
  match DecodeString eenv data with
  | inr e => (("", Some e), [])
  | inl imgData =>
      let tempDir := TempDir env in
      let iconPath :=
        Join env tempDir ("notify_icon_" +:+ nType +:+ "_embed.png") in
      match osWriteFile eenv iconPath imgData 420 with
      | Some e => (("", Some e), [WriteFile iconPath imgData 420])
      | None => ((iconPath, None), [WriteFile iconPath imgData 420])
      end
  end.

(** ** More vocabulary *)

(** A token the loop has a branch for: a help flag, a value-taking flag
    or one of the four [--flag=] forms. *)
Definition recognised (arg : string) : bool :=
  isHelp arg || takesValue arg
  || Strings.HasPrefix arg "--type=" || Strings.HasPrefix arg "--title="
  || Strings.HasPrefix arg "--timeout=" || Strings.HasPrefix arg "--autoclose=".

(** The walk of the loop over a vector ends on a value-taking flag that
    has no token after it. *)
Fixpoint dangling (args : list string) : bool :=
  match args with
  | [] => false
  | arg :: rest =>
      if takesValue arg then
        match rest with
        | [] => true
        | _ :: rest' => dangling rest'
        end
      else dangling rest
  end.

(** One option of a command line, in its two-token spelling, or the
    message. *)
Inductive CliOption :=
| OptType (v : string)
| OptTitle (v : string)
| OptTimeout (v : string)
| OptAutoClose (v : string)
| OptMessage (m : string).

Definition tokens (o : CliOption) : list string :=
  match o with
  | OptType v => ["--type"; v]
  | OptTitle v => ["--title"; v]
  | OptTimeout v => ["--timeout"; v]
  | OptAutoClose v => ["--autoclose"; v]
  | OptMessage m => [m]
  end.

(** The variable of [main] an option assigns. *)
Definition field (o : CliOption) : nat :=
  match o with
  | OptType _ => 0 | OptTitle _ => 1 | OptTimeout _ => 2
  | OptAutoClose _ => 3 | OptMessage _ => 4
  end%nat.

(** The option is well formed: a message does not start with a dash. *)
Definition wellFormed (o : CliOption) : Prop :=
  match o with
  | OptMessage m => Strings.HasPrefix m "-" = false
  | _ => True
  end.

(** The channels of a colour are bytes. *)
Definition validColor (c : RGBA) : Prop :=
  0 <= R c <= 255 /\ 0 <= G c <= 255 /\ 0 <= B c <= 255 /\ 0 <= A c <= 255.

(** The timeout fits the int of the target. *)
Definition timeoutFits (st : ParseState) : Prop :=
  Strconv.minInt <= timeout st <= Strconv.maxInt.

(** What an option does to the variables of [main]. *)
Definition applyOption (lower : string -> string) (st : ParseState)
           (o : CliOption) : ParseState :=
  match o with
  | OptType v => setType st v
  | OptTitle v => setTitle st v
  | OptTimeout v => assignTimeout st v
  | OptAutoClose v => setAutoClose st (parseBool lower v)
  | OptMessage m => setMessage st m
  end.

(** The text [needle] occurs somewhere in [hay]. *)
Fixpoint occursIn (needle hay : string) : bool :=
  String.prefix needle hay
  || match hay with
     | EmptyString => false
     | String _ hay' => occursIn needle hay'
     end.

(** * Properties *)

(** ** The parse loop *)

Section ParserFacts.
Variable lower : string -> string.

(** An iteration only looks at the vector from its index on. *)
Lemma step_shift a args i st :
  step lower (a :: args) (S i) st =
  match step lower args i st with
  | Stop r => Stop r
  | Next i' st' => Next (S i') st'
  end.
Proof.
  unfold step. cbn [lookup list_lookup length Nat.add].
  change (S (i + 1) <? S (length args))%nat with (i + 1 <? length args)%nat.
  destruct (lookup i args) as [arg|]; [|reflexivity].
  repeat match goal with
         | |- context [if ?b then _ else _] => destruct b
         | |- context [match lookup ?k ?l with _ => _ end] =>
             destruct (lookup k l)
         end; reflexivity.
Qed.

Lemma loop_shift fuel : forall a args i st,
  loop lower fuel (a :: args) (S i) st = loop lower fuel args i st.
Proof.
  induction fuel as [|fuel IH]; intros a args i st; cbn [loop];
    change (S i <? length (a :: args))%nat with (i <? length args)%nat;
    destruct (negb (i <? length args)%nat); try reflexivity.
  rewrite step_shift. destruct (step lower args i st); [reflexivity | apply IH].
Qed.

Lemma loop_past_end fuel args i st :
  (length args <= i)%nat -> loop lower fuel args i st = LoopDone st.
Proof.
  intros H. destruct fuel; cbn [loop];
    destruct (Nat.ltb_spec i (length args)); try lia; reflexivity.
Qed.

Lemma loop_drop fuel args : forall i st,
  loop lower fuel args i st = loop lower fuel (drop i args) 0 st.
Proof.
  induction args as [|a args IH]; intros [|i] st; cbn [drop]; try reflexivity.
  - rewrite !loop_past_end; cbn; try lia; reflexivity.
  - rewrite loop_shift. apply IH.
Qed.

(** An iteration entered within bounds never indexes out of range, and
    moves the index forward by one or two without passing the end. *)
Lemma step_in_bounds args i st :
  (i < length args)%nat ->
  step lower args i st = Stop LoopHelp \/
  exists i' st', step lower args i st = Next i' st' /\
                 (i < i' <= length args)%nat.
Proof.
  intros Hi. unfold step.
  destruct (lookup_lt_is_Some_2 args i Hi) as [arg ->].
  destruct (isHelp arg); [left; reflexivity | right].
  set (ok := fun s : Step =>
         exists i' st', s = Next i' st' /\ (i < i' <= length args)%nat).
  assert (Hone : forall st', ok (Next (i + 1) st'))
    by (intros st'; eexists _, _; split; [reflexivity | lia]).
  assert (Hflag : forall (b : bool) (f : string -> ParseState) (k : Step),
    ok k ->
    ok (if b && (i + 1 <? length args)%nat
        then match args !! (i + 1)%nat with
             | None => Stop LoopPanic
             | Some v => Next (i + 2) (f v)
             end
        else k)).
  { intros b f k Hk. destruct b; cbn [andb]; [|exact Hk].
    destruct (Nat.ltb_spec (i + 1) (length args)) as [Hlt|Hge]; [|exact Hk].
    destruct (lookup_lt_is_Some_2 args _ Hlt) as [v ->].
    eexists _, _; split; [reflexivity | lia]. }
  match goal with
  | |- ex (fun i' => ex (fun st' => ?s = _ /\ _)) => change (ok s)
  end.
  repeat first
    [ apply Hone
    | apply Hflag
    | match goal with |- ok (if ?b then _ else _) => destruct b end ].
Qed.

(** With a unit of fuel for every token still ahead, the loop ends by
    its condition or at a help token. *)
Lemma loop_total fuel : forall args i st,
  (length args - i <= fuel)%nat -> terminated (loop lower fuel args i st).
Proof.
  induction fuel as [|fuel IH]; intros args i st Hf; cbn [loop];
    destruct (Nat.ltb_spec i (length args)) as [Hi|Hi]; cbn [negb];
    try (right; eexists; reflexivity); try lia.
  destruct (step_in_bounds args i st Hi) as [-> | (i' & st' & -> & Hb)].
  - left; reflexivity.
  - apply IH. lia.
Qed.

(** Fuel beyond the tokens ahead changes nothing. *)
Lemma loop_fuel f1 : forall f2 args i st,
  (length args - i <= f1)%nat -> (length args - i <= f2)%nat ->
  loop lower f1 args i st = loop lower f2 args i st.
Proof.
  induction f1 as [|f1 IH]; intros [|f2] args i st H1 H2;
    cbn [loop];
    destruct (Nat.ltb_spec i (length args)) as [Hi|Hi]; cbn [negb];
    try reflexivity; try lia.
  destruct (step_in_bounds args i st Hi) as [-> | (i' & st' & -> & Hb)];
    [reflexivity | apply IH; lia].
Qed.

Lemma parseFrom_nil st : parseFrom lower st [] = LoopDone st.
Proof. reflexivity. Qed.

(** The loop over a non-empty vector is its first iteration followed by
    the loop over what that iteration left. *)
Lemma parseFrom_cons st a rest :
  parseFrom lower st (a :: rest) =
  match step lower (a :: rest) 0 st with
  | Stop r => r
  | Next i' st' => parseFrom lower st' (drop i' (a :: rest))
  end.
Proof.
  unfold parseFrom. cbn [length loop Nat.ltb Nat.leb negb].
  destruct (step_in_bounds (a :: rest) 0 st) as [-> | (i' & st' & -> & Hb)];
    [cbn; lia | reflexivity |].
  rewrite loop_drop.
  apply loop_fuel; rewrite length_drop; cbn [length] in *; lia.
Qed.

End ParserFacts.

(** ** Positional arguments *)

Lemma prefix_empty s : String.prefix "" s = true.
Proof. destruct s; reflexivity. Qed.

Lemma takesValue_cases arg :
  takesValue arg = true ->
  arg ∈ ["--type"; "-type"; "--title"; "-title";
         "--timeout"; "-timeout"; "--autoclose"; "-autoclose"].
Proof.
  unfold takesValue, isTypeFlag, isTitleFlag, isTimeoutFlag, isAutoCloseFlag.
  rewrite !orb_true_iff, !String.eqb_eq, !elem_of_cons. tauto.
Qed.

(** A token without a leading dash passes every flag test of the loop. *)
Lemma no_dash_no_flag arg :
  Strings.HasPrefix arg "-" = false ->
  isHelp arg = false /\ takesValue arg = false /\
  Strings.HasPrefix arg "--type=" = false /\
  Strings.HasPrefix arg "--title=" = false /\
  Strings.HasPrefix arg "--timeout=" = false /\
  Strings.HasPrefix arg "--autoclose=" = false.
Proof.
  destruct arg as [|c arg]; [intros _; repeat split; reflexivity|].
  unfold Strings.HasPrefix, isHelp, takesValue, isTypeFlag, isTitleFlag,
    isTimeoutFlag, isAutoCloseFlag.
  cbn [String.prefix String.eqb].
  destruct (ascii_dec "-" c) as [<-|Hne].
  - rewrite prefix_empty. discriminate.
  - intros _. apply not_eq_sym, Ascii.eqb_neq in Hne. rewrite Hne.
    repeat split; reflexivity.
Qed.

Lemma message_assignTimeout st v : message (assignTimeout st v) = message st.
Proof. unfold assignTimeout. destruct (Strconv.Atoi v); reflexivity. Qed.

Section Positional.
Variable lower : string -> string.

(** What one iteration at the head of a vector does to the message:
    either the token is positional and becomes the message, or the
    message is as before and the iteration consumed no positional
    token. *)
Lemma step_message a rest st0 :
  step lower (a :: rest) 0 st0 = Stop LoopHelp \/
  exists i' st',
    step lower (a :: rest) 0 st0 = Next i' st' /\
    ((positionals (a :: rest) = positionals (drop i' (a :: rest)) /\
      message st' = message st0) \/
     (positionals (a :: rest) = a :: positionals (drop i' (a :: rest)) /\
      message st' = a)).
Proof.
  destruct (Strings.HasPrefix a "-") eqn:Hdash.
  - (* a dash token: a help flag, a flag with or without value, or noise *)
    destruct (takesValue a) eqn:Htv.
    + apply takesValue_cases in Htv.
      repeat (apply elem_of_cons in Htv as [-> | Htv]);
        try (apply elem_of_nil in Htv; contradiction);
        right; destruct rest as [|v rest];
        eexists _, _; (split; [reflexivity|]); left;
        (split; [reflexivity | apply message_assignTimeout || reflexivity]).
    + unfold step. cbn [lookup list_lookup positionals]. rewrite Htv, Hdash.
      unfold takesValue in Htv. rewrite !orb_false_iff in Htv.
      destruct Htv as [[[-> ->] ->] ->]. cbn [andb negb].
      destruct (isHelp a); [left; reflexivity | right].
      repeat match goal with
             | |- context [if ?b then _ else _] => destruct b
             end;
        eexists _, _; (split; [reflexivity|]); left;
        (split; [reflexivity | apply message_assignTimeout || reflexivity]).
  - (* a positional token *)
    destruct (no_dash_no_flag a Hdash) as (Hh & Htv & H1 & H2 & H3 & H4).
    right. unfold step. cbn [lookup list_lookup positionals].
    rewrite Hh, H1, H2, H3, H4, Hdash, Htv.
    unfold takesValue in Htv. rewrite !orb_false_iff in Htv.
    destruct Htv as [[[-> ->] ->] ->]. cbn [andb negb].
    eexists _, _; (split; [reflexivity|]); right; split; reflexivity.
Qed.

(** The message the loop ends with is the last positional token, or
    the message it started with when there is none. *)
Lemma parseFrom_message_last n : forall args st0 st,
  (length args <= n)%nat ->
  parseFrom lower st0 args = LoopDone st ->
  message st = default (message st0) (last (positionals args)).
Proof.
  induction n as [|n IH]; intros [|a rest] st0 st Hn Hp;
    cbn [length] in Hn; try lia;
    try (rewrite parseFrom_nil in Hp; injection Hp as <-; reflexivity).
  rewrite parseFrom_cons in Hp.
  destruct (step_message a rest st0)
    as [Hs | (i' & st' & Hs & Hcase)]; rewrite Hs in Hp; [discriminate|].
  assert (Hi : (0 < i')%nat).
  { destruct (step_in_bounds lower (a :: rest) 0 st0) as [E | (?&?&E&?)];
      [cbn; lia | congruence | rewrite Hs in E; injection E as <- <-; lia]. }
  apply IH in Hp; [|rewrite length_drop; cbn [length]; lia].
  destruct Hcase as [[-> Hm] | [-> Hm]]; rewrite Hp, Hm; [reflexivity|].
  rewrite last_cons. destruct (last _); reflexivity.
Qed.

End Positional.

(** ** Flag values *)

Lemma HasPrefix_app pre v : Strings.HasPrefix (pre +:+ v) pre = true.
Proof.
unfold Strings.HasPrefix. induction pre as [|c pre IH]; simpl.
- apply prefix_empty.
- destruct (ascii_dec c c); [exact IH | contradiction].
Qed.

Lemma sliceFrom_app pre v : Strings.sliceFrom (String.length pre) (pre +:+ v) = v.
Proof. induction pre as [|c pre IH]; [reflexivity | exact IH]. Qed.

Lemma TrimPrefix_app pre v : Strings.TrimPrefix (pre +:+ v) pre = v.
Proof.
unfold Strings.TrimPrefix. rewrite HasPrefix_app. apply sliceFrom_app.
Qed.

Section FlagValues.
Variable lower : string -> string.

(** A value-taking flag followed by a token consumes both. *)
Lemma parseFrom_timeout_flag st flag v rest :
  isTimeoutFlag flag = true ->
  parseFrom lower st (flag :: v :: rest) = parseFrom lower (assignTimeout st v) rest.
Proof.
unfold isTimeoutFlag. rewrite orb_true_iff, !String.eqb_eq.
intros [-> | ->]; rewrite parseFrom_cons; reflexivity.
Qed.

Lemma parseFrom_timeout_eq st v rest :
  parseFrom lower st (("--timeout=" +:+ v) :: rest)
  = parseFrom lower (assignTimeout st v) rest.
Proof.
rewrite parseFrom_cons. unfold step. cbn [lookup list_lookup].
change (isHelp ("--timeout=" +:+ v)) with false.
change (Strings.HasPrefix ("--timeout=" +:+ v) "--type=") with false.
change (Strings.HasPrefix ("--timeout=" +:+ v) "--title=") with false.
change (isTypeFlag ("--timeout=" +:+ v)) with false.
change (isTitleFlag ("--timeout=" +:+ v)) with false.
cbn [andb]. rewrite HasPrefix_app, TrimPrefix_app. reflexivity.
Qed.

Lemma parseFrom_autoclose_flag st flag v rest :
  isAutoCloseFlag flag = true ->
  parseFrom lower st (flag :: v :: rest)
  = parseFrom lower (setAutoClose st (parseBool lower v)) rest.
Proof.
unfold isAutoCloseFlag. rewrite orb_true_iff, !String.eqb_eq.
intros [-> | ->]; rewrite parseFrom_cons; reflexivity.
Qed.

Lemma parseFrom_autoclose_eq st v rest :
  parseFrom lower st (("--autoclose=" +:+ v) :: rest)
  = parseFrom lower (setAutoClose st (parseBool lower v)) rest.
Proof.
rewrite parseFrom_cons. unfold step. cbn [lookup list_lookup].
change (isHelp ("--autoclose=" +:+ v)) with false.
change (Strings.HasPrefix ("--autoclose=" +:+ v) "--type=") with false.
change (Strings.HasPrefix ("--autoclose=" +:+ v) "--title=") with false.
change (Strings.HasPrefix ("--autoclose=" +:+ v) "--timeout=") with false.
change (isTypeFlag ("--autoclose=" +:+ v)) with false.
change (isTitleFlag ("--autoclose=" +:+ v)) with false.
change (isTimeoutFlag ("--autoclose=" +:+ v)) with false.
cbn [andb]. rewrite HasPrefix_app, TrimPrefix_app. reflexivity.
Qed.

End FlagValues.

(** ** Lower-casing and case-insensitive equality *)

Lemma lowerByte_fixed b : Strings.isUpperByte b = false -> Strings.lowerByte b = b.
Proof. unfold Strings.lowerByte. intros ->. reflexivity. Qed.

Lemma mapBytes_lower_fixed s :
  Strings.hasUpper s = false -> Strings.mapBytes Strings.lowerByte s = s.
Proof.
induction s as [|c s IH]; cbn [Strings.hasUpper Strings.mapBytes];
  [reflexivity|].
rewrite orb_false_iff. intros [Hc Hs]. rewrite lowerByte_fixed, IH; auto.
Qed.

(** Lowering a byte keeps it on its side of utf8.RuneSelf. *)
Lemma lowerByte_ascii c :
  (Strings.byteVal (Strings.lowerByte c) <? 128)%N = (Strings.byteVal c <? 128)%N.
Proof. destruct c as [[] [] [] [] [] [] [] []]; reflexivity. Qed.

(** Comparing the lowered string with a word without upper-case letters
    is comparing up to case. *)
Lemma eqb_lowered s : forall t,
  Strings.hasUpper t = false ->
  String.eqb (Strings.mapBytes Strings.lowerByte s) t = equalFold s t.
Proof.
induction s as [|a s IH]; intros [|b t]; cbn [Strings.hasUpper]; try reflexivity.
rewrite orb_false_iff. intros [Hb Ht].
cbn [Strings.mapBytes String.eqb equalFold].
rewrite (lowerByte_fixed b Hb), (IH t Ht).
destruct (Ascii.eqb (Strings.lowerByte a) b); reflexivity.
Qed.

(** A string with a byte from 0x80 on is not equal up to case to an
    ASCII-only one. *)
Lemma equalFold_ascii s : forall t,
  equalFold s t = true -> Strings.isASCII t = true -> Strings.isASCII s = true.
Proof.
induction s as [|a s IH]; intros [|b t]; cbn [equalFold Strings.isASCII];
  try discriminate; try reflexivity.
rewrite !andb_true_iff, Ascii.eqb_eq. intros [Hab Hst] [Hb Ht].
split; [|eapply IH; eassumption].
rewrite <- lowerByte_ascii, Hab, lowerByte_ascii. exact Hb.
Qed.

Section ParseBool.
Variable lower : string -> string.

(** On ASCII-only input, ToLower is the byte-wise lowering. *)
Lemma ToLower_ascii s :
  Strings.isASCII s = true ->
  Strings.ToLower lower s = Strings.mapBytes Strings.lowerByte s.
Proof.
unfold Strings.ToLower. intros ->.
destruct (Strings.hasUpper s) eqn:Hu; [reflexivity|].
symmetry. apply mapBytes_lower_fixed, Hu.
Qed.

(** The Unicode mapping of a string that is not ASCII-only never yields
    the word true: an invalid byte comes out as U+FFFD, and the only
    runes from 0x80 on whose lower case is an ASCII letter are U+0130
    (to i) and U+212A (to k). *)
Hypothesis lower_not_true :
  forall s, Strings.isASCII s = false -> lower s <> "true".

Lemma parseBool_equalFold v : parseBool lower v = equalFold v "true".
Proof.
unfold parseBool. destruct (Strings.isASCII v) eqn:Ha.
- rewrite ToLower_ascii by exact Ha. apply eqb_lowered. reflexivity.
- unfold Strings.ToLower. rewrite Ha.
  destruct (equalFold v "true") eqn:Hf.
  + apply equalFold_ascii in Hf; [congruence | reflexivity].
  + apply String.eqb_neq, lower_not_true, Ha.
Qed.

End ParseBool.

(** The identity stands in for the Unicode mapping where only ASCII
    input is evaluated; it meets the assumption on that mapping. *)
Lemma identity_not_true (s : string) : Strings.isASCII s = false -> s <> "true".
Proof. intros H ->. discriminate H. Qed.

(** ** The parser: claims *)

Lemma isValidType_elem t : isValidType t = true <-> t ∈ validTypes.
Proof.
unfold isValidType, validTypes. cbn [existsb].
rewrite orb_false_r, !orb_true_iff, !String.eqb_eq, !elem_of_cons, elem_of_nil.
tauto.
Qed.

Lemma request_Some lower args n :
  request lower args = Some n ->
  exists st, parseArgs lower args = LoopDone st /\ validate st = inr n.
Proof.
unfold request. destruct (parseArgs lower args) as [st| | |]; try discriminate.
destruct (validate st) as [?|n'] eqn:Hv; [discriminate|].
intros [= <-]. eauto.
Qed.

Lemma validate_message st n : validate st = inr n -> Message n = message st.
Proof.
unfold validate.
destruct (String.eqb (message st) ""); [discriminate|].
destruct (negb (isValidType (notificationType st))); [discriminate|].
intros [= <-]. reflexivity.
Qed.

(** The message of the request is the last positional token, whatever
    the number of positional tokens. *)
Lemma request_message_last lower args n :
  request lower args = Some n ->
  Message n = default "" (last (positionals args)).
Proof.
intros (st & Hp & Hv)%request_Some.
rewrite (validate_message _ _ Hv).
exact (parseFrom_message_last lower _ _ _ _ (le_n _) Hp).
Qed.

(** C1 (amended): for every argument vector with two or more tokens that
    do not start with a dash and are not consumed as flag values, the
    message of the resulting request is the last such token; the loop
    assigns each of them to the message in turn. *)
Theorem message_is_last_positional lower args n :
  (2 <= length (positionals args))%nat ->
  request lower args = Some n ->
  last (positionals args) = Some (Message n).
Proof.
intros Hlen Hr. rewrite (request_message_last _ _ _ Hr).
destruct (last (positionals args)) eqn:Hl; [reflexivity|].
apply last_None in Hl. rewrite Hl in Hlen. cbn in Hlen. lia.
Qed.

Lemma message_is_last_positional_witness :
  (2 <= length (positionals ["first"; "--type"; "error"; "second"]))%nat /\
  request (fun s => s) ["first"; "--type"; "error"; "second"]
  = Some {| Type_ := "error"; Title := "Error"; Message := "second";
            Timeout := 5; AutoClose := true |} /\
  last (positionals ["first"; "--type"; "error"; "second"]) = Some "second".
Proof.
split; [cbn; lia|]. split; [reflexivity|].
exact (message_is_last_positional (fun s => s)
         ["first"; "--type"; "error"; "second"]
         {| Type_ := "error"; Title := "Error"; Message := "second";
            Timeout := 5; AutoClose := true |}
         ltac:(cbn; lia) eq_refl).
Defined.

(** C1 as stated fails: with the positional tokens first and second, the
    request carries second, not first. *)
Lemma first_positional_not_kept :
  positionals ["first"; "second"] = ["first"; "second"] /\
  (forall lower, exists n,
      request lower ["first"; "second"] = Some n /\
      Message n = "second" /\
      Some (Message n) <> head (positionals ["first"; "second"])).
Proof.
split; [reflexivity|]. intros lower.
exists {| Type_ := "info"; Title := "Info"; Message := "second";
          Timeout := 5; AutoClose := true |}.
split; [reflexivity|]. split; [reflexivity | discriminate].
Qed.

(** C3: the value given to --autoclose, -autoclose or --autoclose= sets
    autoClose to true exactly when it equals true up to case, and to
    false otherwise: the state the loop goes on with, and the state it
    ends in when the flag comes last, has that value in its autoClose
    field and every other field as before. *)
Theorem autoclose_true_iff_equalFold lower
    (lower_not_true : forall s, Strings.isASCII s = false -> lower s <> "true")
    st v rest :
  parseBool lower v = equalFold v "true" /\
  parseFrom lower st ("--autoclose" :: v :: rest)
    = parseFrom lower
      {| notificationType := notificationType st; timeout := timeout st;
         autoClose := equalFold v "true"; customTitle := customTitle st;
         message := message st |} rest /\
  parseFrom lower st ("-autoclose" :: v :: rest)
    = parseFrom lower
      {| notificationType := notificationType st; timeout := timeout st;
         autoClose := equalFold v "true"; customTitle := customTitle st;
         message := message st |} rest /\
  parseFrom lower st (("--autoclose=" +:+ v) :: rest)
    = parseFrom lower
      {| notificationType := notificationType st; timeout := timeout st;
         autoClose := equalFold v "true"; customTitle := customTitle st;
         message := message st |} rest /\
  parseFrom lower st ["--autoclose"; v]
    = LoopDone
      {| notificationType := notificationType st; timeout := timeout st;
         autoClose := equalFold v "true"; customTitle := customTitle st;
         message := message st |} /\
  parseFrom lower st ["-autoclose"; v]
    = LoopDone
      {| notificationType := notificationType st; timeout := timeout st;
         autoClose := equalFold v "true"; customTitle := customTitle st;
         message := message st |} /\
  parseFrom lower st ["--autoclose=" +:+ v]
    = LoopDone
      {| notificationType := notificationType st; timeout := timeout st;
         autoClose := equalFold v "true"; customTitle := customTitle st;
         message := message st |} /\
  (forall st',
     parseFrom lower st ["--autoclose"; v] = LoopDone st' ->
     (autoClose st' = true <-> equalFold v "true" = true)).
Proof.
assert (Hflag : forall flag rest', isAutoCloseFlag flag = true ->
          parseFrom lower st (flag :: v :: rest')
          = parseFrom lower (setAutoClose st (equalFold v "true")) rest').
{ intros flag rest' Hf. rewrite (parseFrom_autoclose_flag lower st flag v rest' Hf).
  rewrite (parseBool_equalFold lower lower_not_true v). reflexivity. }
assert (Heq : forall rest',
          parseFrom lower st (("--autoclose=" +:+ v) :: rest')
          = parseFrom lower (setAutoClose st (equalFold v "true")) rest').
{ intros rest'. rewrite parseFrom_autoclose_eq.
  rewrite (parseBool_equalFold lower lower_not_true v). reflexivity. }
split; [apply parseBool_equalFold, lower_not_true|].
split; [exact (Hflag "--autoclose" rest eq_refl)|].
split; [exact (Hflag "-autoclose" rest eq_refl)|].
split; [exact (Heq rest)|].
split; [exact (Hflag "--autoclose" [] eq_refl)|].
split; [exact (Hflag "-autoclose" [] eq_refl)|].
split; [exact (Heq [])|].
intros st' Hst'. rewrite (Hflag "--autoclose" [] eq_refl) in Hst'.
injection Hst' as <-. reflexivity.
Qed.

Lemma autoclose_true_iff_equalFold_witness :
  (forall s, Strings.isASCII s = false -> s <> "true") /\
  parseFrom (fun s => s) defaults ["--autoclose"; "TrUe"]
    = LoopDone {| notificationType := "info"; timeout := 5; autoClose := true;
                  customTitle := ""; message := "" |} /\
  parseFrom (fun s => s) defaults ["--autoclose=false"]
    = LoopDone {| notificationType := "info"; timeout := 5; autoClose := false;
                  customTitle := ""; message := "" |} /\
  (autoClose {| notificationType := "info"; timeout := 5; autoClose := false;
                customTitle := ""; message := "" |} = true
   <-> equalFold "1" "true" = true).
Proof.
split; [exact identity_not_true|]. split; [|split].
- exact (proj1 (proj2 (proj2 (proj2 (proj2
           (autoclose_true_iff_equalFold (fun s => s) identity_not_true
              defaults "TrUe" [])))))).
- exact (proj1 (proj2 (proj2 (proj2 (proj2 (proj2 (proj2
           (autoclose_true_iff_equalFold (fun s => s) identity_not_true
              defaults "false" [])))))))).
- exact (proj2 (proj2 (proj2 (proj2 (proj2 (proj2 (proj2
           (autoclose_true_iff_equalFold (fun s => s) identity_not_true
              defaults "1" [])))))))
         _ eq_refl).
Defined.

(** C4: a --timeout, -timeout or --timeout= value that Atoi rejects
    leaves the parse as it would be without the flag, so the timeout
    keeps its earlier value (5 from the defaults) and no error is
    raised; a value Atoi accepts becomes the timeout: the state the loop
    goes on with, and the state it ends in when the flag comes last, has
    that value in its timeout field and every other field as before. *)
Theorem timeout_value_handling lower st v rest :
  (Strconv.Atoi v = None ->
     parseFrom lower st ("--timeout" :: v :: rest) = parseFrom lower st rest /\
     parseFrom lower st ("-timeout" :: v :: rest) = parseFrom lower st rest /\
     parseFrom lower st (("--timeout=" +:+ v) :: rest) = parseFrom lower st rest /\
     parseFrom lower st ["--timeout"; v] = LoopDone st /\
     parseFrom lower st ["-timeout"; v] = LoopDone st /\
     parseFrom lower st ["--timeout=" +:+ v] = LoopDone st) /\
  (forall n, Strconv.Atoi v = Some n ->
     parseFrom lower st ("--timeout" :: v :: rest)
       = parseFrom lower
         {| notificationType := notificationType st; timeout := n;
          autoClose := autoClose st; customTitle := customTitle st;
          message := message st |} rest /\
     parseFrom lower st ("-timeout" :: v :: rest)
       = parseFrom lower
         {| notificationType := notificationType st; timeout := n;
          autoClose := autoClose st; customTitle := customTitle st;
          message := message st |} rest /\
     parseFrom lower st (("--timeout=" +:+ v) :: rest)
       = parseFrom lower
         {| notificationType := notificationType st; timeout := n;
          autoClose := autoClose st; customTitle := customTitle st;
          message := message st |} rest /\
     parseFrom lower st ["--timeout"; v]
       = LoopDone
         {| notificationType := notificationType st; timeout := n;
          autoClose := autoClose st; customTitle := customTitle st;
          message := message st |} /\
     parseFrom lower st ["-timeout"; v]
       = LoopDone
         {| notificationType := notificationType st; timeout := n;
          autoClose := autoClose st; customTitle := customTitle st;
          message := message st |} /\
     parseFrom lower st ["--timeout=" +:+ v]
       = LoopDone
         {| notificationType := notificationType st; timeout := n;
          autoClose := autoClose st; customTitle := customTitle st;
          message := message st |} /\
     (forall st', parseFrom lower st ["--timeout"; v] = LoopDone st' ->
                  timeout st' = n)) /\
  timeout defaults = 5.
Proof.
assert (Hflag : forall flag rest', isTimeoutFlag flag = true ->
          parseFrom lower st (flag :: v :: rest')
          = parseFrom lower (assignTimeout st v) rest')
  by (intros; apply parseFrom_timeout_flag; assumption).
assert (Heq : forall rest',
          parseFrom lower st (("--timeout=" +:+ v) :: rest')
          = parseFrom lower (assignTimeout st v) rest')
  by (intros; apply parseFrom_timeout_eq).
unfold assignTimeout in *.
split; [|split; [|reflexivity]].
- intros Hv. rewrite Hv in *.
  split; [exact (Hflag "--timeout" rest eq_refl)|].
  split; [exact (Hflag "-timeout" rest eq_refl)|].
  split; [exact (Heq rest)|].
  split; [exact (Hflag "--timeout" [] eq_refl)|].
  split; [exact (Hflag "-timeout" [] eq_refl) | exact (Heq [])].
- intros n Hv. rewrite Hv in *.
  split; [exact (Hflag "--timeout" rest eq_refl)|].
  split; [exact (Hflag "-timeout" rest eq_refl)|].
  split; [exact (Heq rest)|].
  split; [exact (Hflag "--timeout" [] eq_refl)|].
  split; [exact (Hflag "-timeout" [] eq_refl)|].
  split; [exact (Heq [])|].
  intros st' Hst'. rewrite (Hflag "--timeout" [] eq_refl) in Hst'.
  injection Hst' as <-. reflexivity.
Qed.

Lemma timeout_value_handling_witness :
  Strconv.Atoi "abc" = None /\
  parseArgs (fun s => s) ["--timeout"; "abc"]
  = LoopDone {| notificationType := "info"; timeout := 5; autoClose := true;
                customTitle := ""; message := "" |} /\
  Strconv.Atoi "10" = Some 10 /\
  parseArgs (fun s => s) ["--timeout=10"]
  = LoopDone {| notificationType := "info"; timeout := 10; autoClose := true;
                customTitle := ""; message := "" |}.
Proof.
split; [reflexivity|]. split.
- exact (proj1 (proj2 (proj2 (proj2
           (proj1 (timeout_value_handling (fun s => s) defaults "abc" [])
              eq_refl))))).
- split; [reflexivity|].
  exact (proj1 (proj2 (proj2 (proj2 (proj2 (proj2
           (proj1 (proj2 (timeout_value_handling (fun s => s)
                            defaults "10" [])) 10 eq_refl))))))).
Defined.

(** C10: the parse loop ends, by its condition or at a help token, for
    every argument vector, without an index out of range; a value-taking
    flag that is the last token leaves the state as it was. *)
Theorem parse_loop_total_in_bounds lower :
  (forall args, terminated (parseArgs lower args)) /\
  (forall fuel args i st,
     (length args - i <= fuel)%nat -> terminated (loop lower fuel args i st)) /\
  (forall pre flag st fuel,
     takesValue flag = true ->
     loop lower (S fuel) (pre ++ [flag]) (length pre) st = LoopDone st).
Proof.
split; [|split].
- intros args. apply loop_total. lia.
- intros fuel args i st. apply loop_total.
- intros pre flag st fuel Hflag.
  rewrite loop_drop, drop_app_length.
  assert (Hstep : step lower [flag] 0 st = Next 1 st).
  { apply takesValue_cases in Hflag.
    repeat (apply elem_of_cons in Hflag as [-> | Hflag]); try reflexivity.
    apply elem_of_nil in Hflag. contradiction. }
  cbn [loop length Nat.ltb Nat.leb negb]. rewrite Hstep.
  apply loop_past_end. cbn [length]. lia.
Qed.

Lemma parse_loop_total_in_bounds_witness :
  takesValue "--type" = true /\
  loop (fun s => s) 2 (["hello"; "--title"; "Hi"] ++ ["--type"]) 3
       (setTitle (setMessage defaults "hello") "Hi")
  = LoopDone (setTitle (setMessage defaults "hello") "Hi").
Proof.
split; [reflexivity|].
exact (proj2 (proj2 (parse_loop_total_in_bounds (fun s => s)))
         ["hello"; "--title"; "Hi"] "--type" _ 1%nat eq_refl).
Defined.

(** C7 (amended): when the parse ends without a help request and leaves
    an empty message or a type outside the four valid ones, the process
    prints an error and exits with code 1 before it calls anything.  The
    message is checked first: with an empty message the output is the
    message-required line with the usage text, whether or not the type
    is valid; with a message and an invalid type it is the line that
    names the invalid type and lists the four valid ones. *)
Theorem invalid_input_exits_nonzero lower env args st :
  parseArgs lower args = LoopDone st ->
  message st = "" \/ notificationType st ∉ ["success"; "error"; "info"; "warning"] ->
  termination (main lower env args) = Exited 1 /\
  calls (main lower env args) = [] /\
  stdout (main lower env args) <> "" /\
  (message st = "" ->
     stdout (main lower env args)
     = "Message is required as a positional argument" +:+ nl +:+ showHelp) /\
  (message st <> "" ->
     stdout (main lower env args)
     = "Invalid notification type: " +:+ notificationType st
       +:+ ". Valid types are: success, error, info, warning" +:+ nl).
Proof.
intros Hp Hbad. unfold main, finish. rewrite Hp. unfold validate.
destruct (String.eqb_spec (message st) "") as [Hm|Hm].
- cbn. repeat split; try discriminate; try reflexivity. intros H; contradiction.
- destruct Hbad as [Hbad|Hbad]; [contradiction|].
  destruct (isValidType (notificationType st)) eqn:Hv.
  { apply isValidType_elem in Hv. contradiction. }
  cbn. repeat split; try discriminate; try reflexivity. intros H; contradiction.
Qed.

Lemma invalid_input_exits_nonzero_witness :
  parseArgs (fun s => s) ["--type"; "bogus"; "hi"]
    = LoopDone (setMessage (setType defaults "bogus") "hi") /\
  termination (main (fun s => s) envAllOk ["--type"; "bogus"; "hi"]) = Exited 1 /\
  stdout (main (fun s => s) envAllOk ["--type"; "bogus"; "hi"])
    = "Invalid notification type: bogus. Valid types are: success, error, info, warning"
      +:+ nl.
Proof.
pose proof (invalid_input_exits_nonzero (fun s => s) envAllOk
              ["--type"; "bogus"; "hi"] _ eq_refl) as H.
split; [reflexivity|].
destruct H as (Ht & _ & _ & _ & Hout).
- right. rewrite !elem_of_cons, elem_of_nil. cbn.
  intros [H|[H|[H|[H|[]]]]]; discriminate H.
- split; [exact Ht | apply Hout; discriminate].
Defined.

(** C7 as stated fails: with an invalid type and no message the process
    prints the message-required text, in which the invalid type does not
    occur. *)
Lemma invalid_type_not_named_without_message :
  isValidType "bogus" = false /\
  (forall lower,
     parseArgs lower ["--type"; "bogus"]
     = LoopDone {| notificationType := "bogus"; timeout := 5;
                   autoClose := true; customTitle := ""; message := "" |}) /\
  (forall lower env,
     termination (main lower env ["--type"; "bogus"]) = Exited 1 /\
     stdout (main lower env ["--type"; "bogus"])
     = "Message is required as a positional argument" +:+ nl +:+ showHelp /\
     occursIn "bogus" (stdout (main lower env ["--type"; "bogus"])) = false /\
     occursIn "Invalid notification type"
              (stdout (main lower env ["--type"; "bogus"])) = false).
Proof.
split; [reflexivity|]. split; [intros lower; reflexivity|].
intros lower env. repeat split; vm_compute; reflexivity.
Qed.

(** ** The icon raster *)

Lemma inRect_spec img x y :
  inRect img x y = true <-> 0 <= x < MaxX img /\ 0 <= y < MaxY img.
Proof.
unfold inRect. rewrite !andb_true_iff, !Z.leb_le, !Z.ltb_lt. lia.
Qed.

Lemma SetRGBA_dims img x y c :
  MaxX (SetRGBA img x y c) = MaxX img /\
  MaxY (SetRGBA img x y c) = MaxY img /\
  Stride (SetRGBA img x y c) = Stride img.
Proof. unfold SetRGBA. destruct (inRect img x y); auto. Qed.

Lemma SetRGBA_wf img x y c : wfImage img -> wfImage (SetRGBA img x y c).
Proof.
unfold wfImage, SetRGBA. destruct (inRect img x y); [|auto].
cbn [Pix Stride MaxX MaxY]. rewrite !length_insert. auto.
Qed.

Lemma inRect_SetRGBA img x y c x' y' :
  inRect (SetRGBA img x y c) x' y' = inRect img x' y'.
Proof.
unfold inRect. destruct (SetRGBA_dims img x y c) as (-> & -> & _). reflexivity.
Qed.

(** The four bytes of a pixel lie inside the buffer. *)
Lemma PixOffset_bound img x y :
  wfImage img -> inRect img x y = true ->
  0 <= PixOffset img x y /\
  (Z.to_nat (PixOffset img x y) + 3 < length (Pix img))%nat.
Proof.
intros (Hw & Hh & Hs & Hl) (Hx & Hy)%inRect_spec.
unfold PixOffset. rewrite Hs, Hl. split; [nia|].
assert (y * (4 * MaxX img) + x * 4 + 3 < 4 * MaxX img * MaxY img) by nia.
assert (0 <= y * (4 * MaxX img) + x * 4) by nia.
lia.
Qed.

(** Two different pixels have offsets at least four bytes apart. *)
Lemma PixOffset_apart img x y x' y' :
  wfImage img -> inRect img x y = true -> inRect img x' y' = true ->
  (x, y) <> (x', y') ->
  PixOffset img x y + 4 <= PixOffset img x' y' \/
  PixOffset img x' y' + 4 <= PixOffset img x y.
Proof.
intros (Hw & Hh & Hs & Hl) (Hx & Hy)%inRect_spec (Hx' & Hy')%inRect_spec Hne.
unfold PixOffset. rewrite Hs.
destruct (Z.lt_trichotomy y y') as [Hlt | [-> | Hgt]].
- left. nia.
- assert (x <> x') by congruence. lia.
- right. nia.
Qed.

(** Reading the four bytes just written, and reading around them. *)
Lemma insert4_at (l : list Z) i r g b a :
  (i + 3 < length l)%nat ->
  let l' := <[(i + 3)%nat := a]> (<[(i + 2)%nat := b]>
             (<[(i + 1)%nat := g]> (<[i := r]> l))) in
  l' !! (i + 0)%nat = Some r /\ l' !! (i + 1)%nat = Some g /\
  l' !! (i + 2)%nat = Some b /\ l' !! (i + 3)%nat = Some a.
Proof.
intros Hi l'. subst l'. rewrite Nat.add_0_r. repeat split.
- rewrite !list_lookup_insert_ne by lia.
  apply list_lookup_insert_eq. lia.
- rewrite !list_lookup_insert_ne by lia.
  apply list_lookup_insert_eq. rewrite length_insert. lia.
- rewrite !list_lookup_insert_ne by lia.
  apply list_lookup_insert_eq. rewrite !length_insert. lia.
- apply list_lookup_insert_eq. rewrite !length_insert. lia.
Qed.

Lemma insert4_off (l : list Z) i j r g b a :
  (j < i \/ i + 4 <= j)%nat ->
  <[(i + 3)%nat := a]> (<[(i + 2)%nat := b]>
    (<[(i + 1)%nat := g]> (<[i := r]> l))) !! j = l !! j.
Proof. intros Hj. rewrite !list_lookup_insert_ne by lia. reflexivity. Qed.

Lemma RGBAAt_SetRGBA_same img x y c :
  wfImage img -> inRect img x y = true ->
  RGBAAt (SetRGBA img x y c) x y = c.
Proof.
intros Hwf Hin. unfold RGBAAt. rewrite inRect_SetRGBA, Hin.
destruct (PixOffset_bound img x y Hwf Hin) as [_ Hb].
unfold SetRGBA, PixOffset. rewrite Hin. cbn [Pix Stride].
fold (PixOffset img x y).
destruct (insert4_at (Pix img) (Z.to_nat (PixOffset img x y))
            (R c) (G c) (B c) (A c) Hb) as (-> & -> & -> & ->).
destruct c; reflexivity.
Qed.

Lemma RGBAAt_SetRGBA_other img x y c x' y' :
  wfImage img -> inRect img x y = true -> inRect img x' y' = true ->
  (x, y) <> (x', y') ->
  RGBAAt (SetRGBA img x y c) x' y' = RGBAAt img x' y'.
Proof.
intros Hwf Hin Hin' Hne. unfold RGBAAt. rewrite inRect_SetRGBA, Hin'.
destruct (PixOffset_bound img x y Hwf Hin) as [H0 _].
destruct (PixOffset_bound img x' y' Hwf Hin') as [H0' _].
pose proof (PixOffset_apart img x y x' y' Hwf Hin Hin' Hne) as Hap.
unfold SetRGBA, PixOffset. rewrite Hin. cbn [Pix Stride].
fold (PixOffset img x y). fold (PixOffset img x' y').
rewrite !insert4_off by lia. reflexivity.
Qed.

Lemma drawPixel_Set c y img x :
  drawPixel c y img x = SetRGBA img x y (pixelColor c x y).
Proof.
unfold drawPixel, pixelColor.
destruct (_ <=? _); reflexivity.
Qed.

(** The inner loop over any columns [xs] of row [y]: those pixels get
    their colour, every other pixel is as before. *)
Lemma drawRow_pixels c y xs : forall img,
  wfImage img -> 0 <= y < MaxY img -> NoDup xs ->
  (forall x, x ∈ xs -> 0 <= x < MaxX img) ->
  wfImage (foldl (drawPixel c y) img xs) /\
  MaxX (foldl (drawPixel c y) img xs) = MaxX img /\
  MaxY (foldl (drawPixel c y) img xs) = MaxY img /\
  forall x' y', inRect img x' y' = true ->
    RGBAAt (foldl (drawPixel c y) img xs) x' y'
    = if decide (y' = y /\ x' ∈ xs) then pixelColor c x' y'
      else RGBAAt img x' y'.
Proof.
induction xs as [|x xs IH]; intros img Hwf Hy Hnd Hxs; cbn [foldl].
- split; [exact Hwf|]. do 2 (split; [reflexivity|]). intros x' y' _.
  destruct (decide _) as [[_ H]|_]; [|reflexivity].
  apply elem_of_nil in H. contradiction.
- apply NoDup_cons in Hnd as [Hx Hnd].
  rewrite drawPixel_Set.
  destruct (SetRGBA_dims img x y (pixelColor c x y)) as (Ex & Ey & _).
  assert (Hin : inRect img x y = true)
    by (apply inRect_spec; split; [apply Hxs; left | exact Hy]).
  destruct (IH (SetRGBA img x y (pixelColor c x y))) as (Hwf' & Ex' & Ey' & Hpix).
  { apply SetRGBA_wf, Hwf. }
  { rewrite Ey. exact Hy. }
  { exact Hnd. }
  { intros x0 H0. rewrite Ex. apply Hxs. right. exact H0. }
  split; [exact Hwf'|]. do 2 (split; [congruence|]).
  intros x' y' Hin'. rewrite Hpix by (rewrite inRect_SetRGBA; exact Hin').
  destruct (decide (y' = y /\ x' ∈ xs)) as [[-> Hel]|Hno].
  + rewrite decide_True; [reflexivity | split; [reflexivity | right; exact Hel]].
  + destruct (decide (y' = y /\ x' ∈ x :: xs)) as [[-> Hel]|Hno'].
    * apply elem_of_cons in Hel as [-> | Hel]; [|tauto].
      apply RGBAAt_SetRGBA_same; assumption.
    * apply RGBAAt_SetRGBA_other; try assumption.
      intros [= -> ->]. apply Hno'. split; [reflexivity | left].
Qed.

(** One full row of an image [size] pixels wide. *)
Lemma drawRow_row c y img :
  wfImage img -> MaxX img = size -> 0 <= y < MaxY img ->
  wfImage (drawRow c img y) /\
  MaxX (drawRow c img y) = MaxX img /\
  MaxY (drawRow c img y) = MaxY img /\
  forall x' y', inRect img x' y' = true ->
    RGBAAt (drawRow c img y) x' y'
    = if decide (y' = y) then pixelColor c x' y' else RGBAAt img x' y'.
Proof.
intros Hwf Hw Hy. unfold drawRow.
destruct (drawRow_pixels c y (seqZ 0 size) img) as (Hwf1 & Ex1 & Ey1 & Hrow).
{ exact Hwf. }
{ exact Hy. }
{ apply NoDup_seqZ. }
{ intros x Hx%elem_of_seqZ. lia. }
split; [exact Hwf1|]. do 2 (split; [assumption|]).
intros x' y' Hin. rewrite (Hrow _ _ Hin).
destruct (decide (y' = y)) as [->|Hne].
- rewrite decide_True; [reflexivity|]. split; [reflexivity|].
  apply elem_of_seqZ. apply inRect_spec in Hin. lia.
- rewrite decide_False; [reflexivity | tauto].
Qed.

(** The outer loop over any rows [ys] of an image [size] pixels wide. *)
Lemma drawRows_pixels c ys : forall img,
  wfImage img -> MaxX img = size -> NoDup ys ->
  (forall y, y ∈ ys -> 0 <= y < MaxY img) ->
  wfImage (foldl (drawRow c) img ys) /\
  MaxX (foldl (drawRow c) img ys) = MaxX img /\
  MaxY (foldl (drawRow c) img ys) = MaxY img /\
  forall x' y', inRect img x' y' = true ->
    RGBAAt (foldl (drawRow c) img ys) x' y'
    = if decide (y' ∈ ys) then pixelColor c x' y' else RGBAAt img x' y'.
Proof.
induction ys as [|y ys IH]; intros img Hwf Hw Hnd Hys; cbn [foldl].
- split; [exact Hwf|]. do 2 (split; [reflexivity|]). intros x' y' _.
  destruct (decide _) as [H|_]; [|reflexivity].
  apply elem_of_nil in H. contradiction.
- apply NoDup_cons in Hnd as [Hy Hnd].
  destruct (drawRow_row c y img) as (Hwf1 & Ex1 & Ey1 & Hrow).
  { exact Hwf. }
  { exact Hw. }
  { apply Hys. left. }
  destruct (IH (drawRow c img y)) as (Hwf' & Ex' & Ey' & Hpix).
  { exact Hwf1. }
  { congruence. }
  { exact Hnd. }
  { intros y0 H0. rewrite Ey1. apply Hys. right. exact H0. }
  split; [exact Hwf'|]. do 2 (split; [congruence|]).
  intros x' y' Hin'.
  assert (Hin1 : inRect (drawRow c img y) x' y' = true).
  { apply inRect_spec. rewrite Ex1, Ey1. apply inRect_spec, Hin'. }
  rewrite (Hpix _ _ Hin1), (Hrow _ _ Hin').
  destruct (decide (y' ∈ ys)) as [Hel|Hno].
  + rewrite decide_True; [reflexivity | right; exact Hel].
  + destruct (decide (y' = y)) as [->|Hne].
    * rewrite decide_True; [reflexivity | left].
    * rewrite decide_False; [reflexivity|].
      intros [?|?]%elem_of_cons; contradiction.
Qed.

Lemma NewRGBA_wf w h : 0 <= w -> 0 <= h -> wfImage (NewRGBA w h).
Proof.
intros Hw Hh. unfold wfImage, NewRGBA. cbn [Pix Stride MaxX MaxY].
rewrite length_replicate. auto.
Qed.

(** Every pixel of the finished icon has the colour of the inner loop's
    test; the image is [size] by [size]. *)
Lemma drawIcon_pixels c x y :
  0 <= x < size -> 0 <= y < size ->
  RGBAAt (drawIcon c) x y = pixelColor c x y.
Proof.
intros Hx Hy. unfold drawIcon.
destruct (drawRows_pixels c (seqZ 0 size) (NewRGBA size size))
  as (_ & _ & _ & Hpix).
- apply NewRGBA_wf; discriminate.
- reflexivity.
- apply NoDup_seqZ.
- intros y0 H0%elem_of_seqZ. cbn [MaxY NewRGBA]. lia.
- rewrite Hpix by (apply inRect_spec; cbn [MaxX MaxY NewRGBA]; lia).
  rewrite decide_True; [reflexivity | apply elem_of_seqZ; lia].
Qed.

Lemma drawIcon_dims c :
  MaxX (drawIcon c) = size /\ MaxY (drawIcon c) = size /\
  length (Pix (drawIcon c)) = Z.to_nat (4 * size * size).
Proof.
unfold drawIcon.
destruct (drawRows_pixels c (seqZ 0 size) (NewRGBA size size))
  as ((_ & _ & _ & Hl) & Ex & Ey & _).
- apply NewRGBA_wf; discriminate.
- reflexivity.
- apply NoDup_seqZ.
- intros y0 H0%elem_of_seqZ. cbn [MaxY NewRGBA]. lia.
- rewrite Hl, Ex, Ey. cbn [MaxX MaxY NewRGBA].
  split; [reflexivity|]. split; reflexivity.
Qed.

(** The colour [createIcon] looks up is the one of the palette. *)
Lemma iconEntryFor_color nType : Color (iconEntryFor nType) = specColor nType.
Proof.
unfold iconEntryFor, specColor.
destruct (String.eqb_spec nType "success") as [->|H1]; [reflexivity|].
destruct (String.eqb_spec nType "error") as [->|H2]; [reflexivity|].
destruct (String.eqb_spec nType "warning") as [->|H3]; [reflexivity|].
destruct (decide (nType = "info")) as [->|H4]; [reflexivity|].
unfold iconData at 1.
rewrite !lookup_insert_ne, lookup_empty by congruence. reflexivity.
Qed.

(** C2: the icon of a category is a 64 by 64 RGBA raster whose pixels
    within squared distance 28 * 28 of the centre (32, 32) have the
    opaque colour of the category, and whose other pixels have alpha 0;
    a string outside the four categories gets the colour of info. *)
Theorem icon_raster nType x y :
  0 <= x < 64 -> 0 <= y < 64 ->
  MaxX (iconImage nType) = 64 /\ MaxY (iconImage nType) = 64 /\
  Z.of_nat (length (Pix (iconImage nType))) = 4 * 64 * 64 /\
  ((x - 32) * (x - 32) + (y - 32) * (y - 32) <= 28 * 28 ->
     RGBAAt (iconImage nType) x y = specColor nType) /\
  (28 * 28 < (x - 32) * (x - 32) + (y - 32) * (y - 32) ->
     A (RGBAAt (iconImage nType) x y) = 0) /\
  A (specColor nType) = 255 /\
  specColor "success" = mkRGBA 46 204 113 255 /\
  specColor "error" = mkRGBA 231 76 60 255 /\
  specColor "info" = mkRGBA 52 152 219 255 /\
  specColor "warning" = mkRGBA 241 196 15 255 /\
  (nType ∉ ["success"; "error"; "info"; "warning"] ->
     specColor nType = specColor "info") /\
  (forall env,
     osCreate env (iconPathFor env nType) = None ->
     pngEncode env (iconPathFor env nType) (iconImage nType) = None ->
     fst (run (createIcon env nType)) = (iconPathFor env nType, None)).
Proof.
intros Hx Hy.
assert (Hio : forall env,
  osCreate env (iconPathFor env nType) = None ->
  pngEncode env (iconPathFor env nType) (iconImage nType) = None ->
  fst (run (createIcon env nType)) = (iconPathFor env nType, None)).
{ intros env Hc He. unfold run, createIcon, iconPathFor in *.
  cbv [mbind mret IO_bind IO_ret emit]. rewrite Hc, He. reflexivity. }
unfold iconImage at 1 2 3 4 5.
destruct (drawIcon_dims (Color (iconEntryFor nType))) as (Ex & Ey & El).
pose proof (drawIcon_pixels (Color (iconEntryFor nType)) x y Hx Hy) as Hp.
unfold pixelColor in Hp.
change center with 32 in Hp. change radius with 28 in Hp.
split; [exact Ex|]. split; [exact Ey|].
split; [rewrite El; reflexivity|].
split; [|split].
- intros Hin. apply Z.leb_le in Hin. rewrite Hp, Hin.
  apply iconEntryFor_color.
- intros Hout. apply Z.leb_gt in Hout. rewrite Hp, Hout. reflexivity.
- split.
  { unfold specColor. repeat destruct (String.eqb _ _); reflexivity. }
  do 4 (split; [reflexivity|]).
  split; [|exact Hio].
  rewrite !elem_of_cons, elem_of_nil. intros Hno. unfold specColor.
  destruct (String.eqb_spec nType "success"); [tauto|].
  destruct (String.eqb_spec nType "error"); [tauto|].
  destruct (String.eqb_spec nType "warning"); [tauto|]. reflexivity.
Qed.

Lemma icon_raster_witness :
  0 <= 10 < 64 /\ 0 <= 20 < 64 /\
  RGBAAt (iconImage "warning") 10 20 = mkRGBA 241 196 15 255 /\
  A (RGBAAt (iconImage "bogus") 1 2) = 0.
Proof.
split; [lia|]. split; [lia|]. split.
- exact (proj1 (proj2 (proj2 (proj2 (icon_raster "warning" 10 20
                 ltac:(lia) ltac:(lia))))) ltac:(lia)).
- exact (proj1 (proj2 (proj2 (proj2 (proj2 (icon_raster "bogus" 1 2
                 ltac:(lia) ltac:(lia)))))) ltac:(lia)).
Defined.

(** ** The dispatcher *)

Ltac run_display :=
  unfold run, displayNotification, getIconPath, createIcon, iconPathFor in *;
  cbv [mbind mret IO_bind IO_ret emit].

(** The run of the dispatcher when the icon file is written. *)
Lemma display_icon_written env n :
  osCreate env (iconPathFor env (Type_ n)) = None ->
  pngEncode env (iconPathFor env (Type_ n)) (iconImage (Type_ n)) = None ->
  run (displayNotification env n) =
  let p := iconPathFor env (Type_ n) in
  let written := [EvCreate p; EvEncode p (iconImage (Type_ n)); EvClose p;
                  EvPush (buildToast n p)] in
  match toastPush env (buildToast n p) with
  | Some e => (Some e, written)
  | None =>
      (None, written ++ [EvSleep 500]
                     ++ (if negb (String.eqb p "") then [EvRemove p] else []))
  end.
Proof.
intros Hc He. run_display. rewrite Hc, He. cbn [fst snd app].
destruct (toastPush env _); [reflexivity|].
destruct (negb _); reflexivity.
Qed.

(** The run of the dispatcher when the icon file cannot be created. *)
Lemma display_create_failed env n e :
  osCreate env (iconPathFor env (Type_ n)) = Some e ->
  run (displayNotification env n) =
  let p := iconPathFor env (Type_ n) in
  match toastPush env (buildToast n "") with
  | Some e' => (Some e', [EvCreate p; EvPush (buildToast n "")])
  | None => (None, [EvCreate p; EvPush (buildToast n ""); EvSleep 500])
  end.
Proof.
intros Hc. run_display. rewrite Hc. cbn [fst snd app].
destruct (toastPush env _); reflexivity.
Qed.

(** The run of the dispatcher when the icon cannot be encoded. *)
Lemma display_encode_failed env n e :
  osCreate env (iconPathFor env (Type_ n)) = None ->
  pngEncode env (iconPathFor env (Type_ n)) (iconImage (Type_ n)) = Some e ->
  run (displayNotification env n) =
  let p := iconPathFor env (Type_ n) in
  let tried := [EvCreate p; EvEncode p (iconImage (Type_ n)); EvClose p;
                EvPush (buildToast n "")] in
  match toastPush env (buildToast n "") with
  | Some e' => (Some e', tried)
  | None => (None, tried ++ [EvSleep 500])
  end.
Proof.
intros Hc He. run_display. rewrite Hc, He. cbn [fst snd app].
destruct (toastPush env _); reflexivity.
Qed.

(** Whatever the outside world answers, the dispatcher pushes one toast,
    built from the request and some icon path. *)
Lemma display_one_push env n :
  exists p, pushes (snd (run (displayNotification env n))) = [buildToast n p].
Proof.
destruct (osCreate env (iconPathFor env (Type_ n))) as [e|] eqn:Hc.
- exists "". rewrite (display_create_failed _ _ _ Hc). cbv zeta.
  destruct (toastPush env _); reflexivity.
- destruct (pngEncode env (iconPathFor env (Type_ n)) (iconImage (Type_ n)))
    as [e|] eqn:He.
  + exists "". rewrite (display_encode_failed _ _ _ Hc He). cbv zeta.
    destruct (toastPush env _); reflexivity.
  + exists (iconPathFor env (Type_ n)).
    rewrite (display_icon_written _ _ Hc He). cbv zeta.
    destruct (toastPush env _); [reflexivity|].
    destruct (negb _); reflexivity.
Qed.

Lemma buildToast_audio n p : Audio (buildToast n p) = audioFor (Type_ n).
Proof. unfold buildToast. destruct (negb (AutoClose n)); reflexivity. Qed.

Lemma buildToast_duration n p :
  Duration (buildToast n p) = if AutoClose n then Short else Long.
Proof. unfold buildToast. destruct (AutoClose n); reflexivity. Qed.

Lemma buildToast_icon n p : Icon (buildToast n p) = p.
Proof. unfold buildToast. destruct (negb (AutoClose n)); reflexivity. Qed.

(** C5: the one toast pushed for a validated request has its audio fixed
    by the category alone: the default sound for success, error and
    warning, silence for info. *)
Theorem audio_from_category env n :
  Type_ n ∈ ["success"; "error"; "info"; "warning"] ->
  exists t, pushes (snd (run (displayNotification env n))) = [t] /\
            Audio t = audioFor (Type_ n) /\
            Audio t = if String.eqb (Type_ n) "info" then Silent else Default.
Proof.
intros Hvalid. destruct (display_one_push env n) as [p Hp].
exists (buildToast n p). split; [exact Hp|].
rewrite buildToast_audio. split; [reflexivity|].
rewrite !elem_of_cons, elem_of_nil in Hvalid.
destruct Hvalid as [-> | [-> | [-> | [-> | []]]]]; reflexivity.
Qed.

Lemma audio_from_category_witness :
  Type_ sampleRequest ∈ ["success"; "error"; "info"; "warning"] /\
  exists t, pushes (snd (run (displayNotification envAllOk sampleRequest))) = [t] /\
            Audio t = Default.
Proof.
assert (H : Type_ sampleRequest ∈ ["success"; "error"; "info"; "warning"])
  by left.
split; [exact H|].
destruct (audio_from_category envAllOk sampleRequest H) as (t & Hp & _ & Ha).
exists t. split; [exact Hp | exact Ha].
Defined.

(** C6: the one toast pushed has the duration Long when autoClose is
    false and Short otherwise, and the run of the dispatcher is the same
    whatever timeout the request carries. *)
Theorem duration_from_autoclose env n :
  (exists t, pushes (snd (run (displayNotification env n))) = [t] /\
             Duration t = if AutoClose n then Short else Long) /\
  (forall z, run (displayNotification env (withTimeout n z))
             = run (displayNotification env n)).
Proof.
split.
- destruct (display_one_push env n) as [p Hp].
  exists (buildToast n p). split; [exact Hp | apply buildToast_duration].
- intros z. reflexivity.
Qed.

(** Once [main] has built a request, the process ends as the dispatcher
    does: code 1 with a message on an error, code 0 otherwise. *)
Lemma main_dispatch lower env args n :
  request lower args = Some n ->
  main lower env args =
  match fst (run (displayNotification env n)) with
  | Some e => mkOutcome (displayError e) (snd (run (displayNotification env n)))
                        (Exited 1)
  | None => mkOutcome "" (snd (run (displayNotification env n))) (Exited 0)
  end.
Proof.
intros (st & Hp & Hv)%request_Some. unfold main, finish. rewrite Hp, Hv.
destruct (run (displayNotification env n)) as [[e|] log]; reflexivity.
Qed.

(** C8 (amended): when the icon file has been written and the one
    dispatch call that references it succeeds, the file is removed after
    the call and the grace sleep, as the last action of the dispatcher;
    the answer of the removal is not looked at, so the process still
    ends with code 0. *)
Theorem icon_removed_after_push env n :
  osCreate env (iconPathFor env (Type_ n)) = None ->
  pngEncode env (iconPathFor env (Type_ n)) (iconImage (Type_ n)) = None ->
  iconPathFor env (Type_ n) <> "" ->
  toastPush env (buildToast n (iconPathFor env (Type_ n))) = None ->
  run (displayNotification env n)
  = (None, [EvCreate (iconPathFor env (Type_ n));
            EvEncode (iconPathFor env (Type_ n)) (iconImage (Type_ n));
            EvClose (iconPathFor env (Type_ n));
            EvPush (buildToast n (iconPathFor env (Type_ n)));
            EvSleep 500;
            EvRemove (iconPathFor env (Type_ n))]) /\
  Icon (buildToast n (iconPathFor env (Type_ n))) = iconPathFor env (Type_ n) /\
  (forall lower args,
     request lower args = Some n ->
     termination (main lower env args) = Exited 0).
Proof.
intros Hc He Hp Hpush.
assert (Hrun := display_icon_written env n Hc He).
cbv zeta in Hrun. rewrite Hpush in Hrun.
apply String.eqb_neq in Hp. rewrite Hp in Hrun. cbn [negb app] in Hrun.
split; [exact Hrun|]. split; [apply buildToast_icon|].
intros lower args Hr. rewrite (main_dispatch _ _ _ _ Hr), Hrun. reflexivity.
Qed.

Lemma icon_removed_after_push_witness :
  osCreate envRemoveFails (iconPathFor envRemoveFails "success") = None /\
  osRemove envRemoveFails (iconPathFor envRemoveFails "success")
    = Some "file in use" /\
  removes (snd (run (displayNotification envRemoveFails sampleRequest)))
    = ["C:/Temp/notify_icon_success.png"] /\
  termination (main (fun s => s) envRemoveFails
                 ["Build complete"; "--type"; "success"]) = Exited 0.
Proof.
destruct (icon_removed_after_push envRemoveFails sampleRequest
            eq_refl eq_refl ltac:(discriminate) eq_refl) as (Hrun & _ & Hmain).
split; [reflexivity|]. split; [reflexivity|]. split.
- rewrite Hrun. reflexivity.
- apply Hmain. reflexivity.
Defined.

(** C8 as stated fails: when the dispatch call fails, the dispatcher
    returns its error at once and the icon file it wrote stays; and when
    the call succeeds, the grace sleep comes between the call and the
    removal. *)
Lemma icon_left_when_push_fails :
  osCreate envPushFails (iconPathFor envPushFails "success") = None /\
  pngEncode envPushFails (iconPathFor envPushFails "success")
            (iconImage "success") = None /\
  toastPush envPushFails
            (buildToast sampleRequest (iconPathFor envPushFails "success"))
    = Some "toast unavailable" /\
  run (displayNotification envPushFails sampleRequest)
  = (Some "toast unavailable",
     [EvCreate "C:/Temp/notify_icon_success.png";
      EvEncode "C:/Temp/notify_icon_success.png" (iconImage "success");
      EvClose "C:/Temp/notify_icon_success.png";
      EvPush (buildToast sampleRequest "C:/Temp/notify_icon_success.png")]) /\
  removes (snd (run (displayNotification envPushFails sampleRequest))) = [] /\
  run (displayNotification envAllOk sampleRequest)
  = (None,
     [EvCreate "C:/Temp/notify_icon_success.png";
      EvEncode "C:/Temp/notify_icon_success.png" (iconImage "success");
      EvClose "C:/Temp/notify_icon_success.png";
      EvPush (buildToast sampleRequest "C:/Temp/notify_icon_success.png");
      EvSleep 500;
      EvRemove "C:/Temp/notify_icon_success.png"]).
Proof.
assert (Hrun := display_icon_written envPushFails sampleRequest eq_refl eq_refl).
assert (Hok := display_icon_written envAllOk sampleRequest eq_refl eq_refl).
do 3 (split; [reflexivity|]).
rewrite Hrun, Hok. repeat split; reflexivity.
Qed.

(** C9: when the icon cannot be created or encoded, the dispatcher
    pushes the toast with an empty icon path all the same, and its result
    is that of the push alone: the process ends with code 0 when the
    push succeeds. *)
Theorem icon_failure_not_fatal env n :
  osCreate env (iconPathFor env (Type_ n)) <> None \/
  pngEncode env (iconPathFor env (Type_ n)) (iconImage (Type_ n)) <> None ->
  pushes (snd (run (displayNotification env n))) = [buildToast n ""] /\
  Icon (buildToast n "") = "" /\
  fst (run (displayNotification env n)) = toastPush env (buildToast n "") /\
  (forall lower args,
     request lower args = Some n ->
     toastPush env (buildToast n "") = None ->
     termination (main lower env args) = Exited 0).
Proof.
intros Hfail.
assert (Hrun : exists log,
  run (displayNotification env n) = (toastPush env (buildToast n ""), log) /\
  pushes log = [buildToast n ""]).
{ destruct (osCreate env (iconPathFor env (Type_ n))) as [e|] eqn:Hc.
  - rewrite (display_create_failed _ _ _ Hc). cbv zeta.
    destruct (toastPush env _); eexists; split; reflexivity.
  - destruct (pngEncode env (iconPathFor env (Type_ n)) (iconImage (Type_ n)))
      as [e|] eqn:He; [|destruct Hfail; contradiction].
    rewrite (display_encode_failed _ _ _ Hc He). cbv zeta.
    destruct (toastPush env _); eexists; split; reflexivity. }
destruct Hrun as (log & Hrun & Hpush).
split; [rewrite Hrun; exact Hpush|]. split; [apply buildToast_icon|].
split; [rewrite Hrun; reflexivity|].
intros lower args Hr Hok. rewrite (main_dispatch _ _ _ _ Hr), Hrun, Hok.
reflexivity.
Qed.

Lemma icon_failure_not_fatal_witness :
  osCreate envCreateFails (iconPathFor envCreateFails "success") <> None /\
  pushes (snd (run (displayNotification envCreateFails sampleRequest)))
    = [buildToast sampleRequest ""] /\
  termination (main (fun s => s) envCreateFails
                 ["Build complete"; "--type"; "success"]) = Exited 0.
Proof.
assert (H : osCreate envCreateFails (iconPathFor envCreateFails "success")
            <> None) by discriminate.
destruct (icon_failure_not_fatal envCreateFails sampleRequest (or_introl H))
  as (Hp & _ & _ & Hmain).
split; [exact H|]. split; [exact Hp|].
apply Hmain; reflexivity.
Defined.

(** ** Scenarios of the specification *)

(** The values the specification lists for --autoclose. *)
Example parseBool_samples lower :
  parseBool lower "true" = true /\ parseBool lower "TRUE" = true /\
  parseBool lower "false" = false /\ parseBool lower "False" = false /\
  parseBool lower "1" = false /\ parseBool lower "no" = false.
Proof. repeat split; reflexivity. Qed.

(** notify "Build complete" --type success *)
Example scenario_build_complete lower :
  request lower ["Build complete"; "--type"; "success"] = Some sampleRequest /\
  buildToast sampleRequest "icon.png"
  = {| AppID := "Notify CLI"; ToastTitle := "Success";
       ToastMessage := "Build complete"; Icon := "icon.png";
       Duration := Short; ActivationType := "protocol";
       ActivationArguments := "dismiss"; Audio := Default |}.
Proof. split; reflexivity. Qed.

(** notify "Disk low" --type warning --timeout 10 *)
Example scenario_disk_low lower :
  request lower ["Disk low"; "--type"; "warning"; "--timeout"; "10"]
  = Some {| Type_ := "warning"; Title := "Warning"; Message := "Disk low";
            Timeout := 10; AutoClose := true |}.
Proof. reflexivity. Qed.

(** notify "Download started" --type info --autoclose false *)
Example scenario_download_started lower :
  exists n,
    request lower ["Download started"; "--type"; "info"; "--autoclose"; "false"]
    = Some n /\
    Duration (buildToast n "") = Long /\ Audio (buildToast n "") = Silent.
Proof. eexists. repeat split; reflexivity. Qed.

(** A help token ends the run with code 0 where the loop meets it, and
    is an ordinary value after a value-taking flag. *)
Example scenario_help lower env :
  main lower env ["hello"; "--type"; "bogus"; "-h"]
  = mkOutcome showHelp [] (Exited 0) /\
  request lower ["hello"; "--title"; "--help"]
  = Some {| Type_ := "info"; Title := "--help"; Message := "hello";
            Timeout := 5; AutoClose := true |}.
Proof. split; reflexivity. Qed.

(** * Further properties of the parser *)

Lemma takesValue_false arg :
  takesValue arg = false ->
  isTypeFlag arg = false /\ isTitleFlag arg = false /\
  isTimeoutFlag arg = false /\ isAutoCloseFlag arg = false.
Proof. unfold takesValue. rewrite !orb_false_iff. tauto. Qed.

Section ParserMore.
Variable lower : string -> string.

Lemma parseFrom_type_flag st flag v rest :
  isTypeFlag flag = true ->
  parseFrom lower st (flag :: v :: rest) = parseFrom lower (setType st v) rest.
Proof.
unfold isTypeFlag. rewrite orb_true_iff, !String.eqb_eq.
intros [-> | ->]; rewrite parseFrom_cons; reflexivity.
Qed.

Lemma parseFrom_title_flag st flag v rest :
  isTitleFlag flag = true ->
  parseFrom lower st (flag :: v :: rest) = parseFrom lower (setTitle st v) rest.
Proof.
unfold isTitleFlag. rewrite orb_true_iff, !String.eqb_eq.
intros [-> | ->]; rewrite parseFrom_cons; reflexivity.
Qed.

Lemma parseFrom_type_eq st v rest :
  parseFrom lower st (("--type=" +:+ v) :: rest)
  = parseFrom lower (setType st v) rest.
Proof.
rewrite parseFrom_cons. unfold step. cbn [lookup list_lookup].
change (isHelp ("--type=" +:+ v)) with false.
rewrite HasPrefix_app, TrimPrefix_app. reflexivity.
Qed.

Lemma parseFrom_title_eq st v rest :
  parseFrom lower st (("--title=" +:+ v) :: rest)
  = parseFrom lower (setTitle st v) rest.
Proof.
rewrite parseFrom_cons. unfold step. cbn [lookup list_lookup].
change (isHelp ("--title=" +:+ v)) with false.
change (Strings.HasPrefix ("--title=" +:+ v) "--type=") with false.
change (isTypeFlag ("--title=" +:+ v)) with false.
cbn [andb]. rewrite HasPrefix_app, TrimPrefix_app. reflexivity.
Qed.

(** A token without a leading dash becomes the message. *)
Lemma parseFrom_positional st m rest :
  Strings.HasPrefix m "-" = false ->
  parseFrom lower st (m :: rest) = parseFrom lower (setMessage st m) rest.
Proof.
intros Hdash. rewrite parseFrom_cons. unfold step. cbn [lookup list_lookup].
destruct (no_dash_no_flag m Hdash) as (Hh & Htv & H1 & H2 & H3 & H4).
destruct (takesValue_false m Htv) as (F1 & F2 & F3 & F4).
rewrite Hh, H1, H2, H3, H4, Hdash, F1, F2, F3, F4. reflexivity.
Qed.

(** A dash token the loop has no branch for is passed over. *)
Lemma parseFrom_unrecognised st arg rest :
  Strings.HasPrefix arg "-" = true -> recognised arg = false ->
  parseFrom lower st (arg :: rest) = parseFrom lower st rest.
Proof.
intros Hdash Hrec. unfold recognised in Hrec. rewrite !orb_false_iff in Hrec.
destruct Hrec as [[[[[Hh Htv] H1] H2] H3] H4].
destruct (takesValue_false arg Htv) as (F1 & F2 & F3 & F4).
rewrite parseFrom_cons. unfold step. cbn [lookup list_lookup].
rewrite Hh, H1, H2, H3, H4, Hdash, F1, F2, F3, F4. reflexivity.
Qed.

(** X1: --type and --title take their value in all three spellings; the
    two-token spellings take whatever token follows, be it a flag or a
    help token, and the [=] spellings take the rest of the token, be it
    empty; the value ends up in the type or title field, the other
    fields as before. *)
Theorem type_title_spellings st v rest :
  parseFrom lower st ("--type" :: v :: rest) = parseFrom lower (setType st v) rest /\
  parseFrom lower st ("-type" :: v :: rest) = parseFrom lower (setType st v) rest /\
  parseFrom lower st (("--type=" +:+ v) :: rest)
    = parseFrom lower (setType st v) rest /\
  parseFrom lower st ("--title" :: v :: rest) = parseFrom lower (setTitle st v) rest /\
  parseFrom lower st ("-title" :: v :: rest) = parseFrom lower (setTitle st v) rest /\
  parseFrom lower st (("--title=" +:+ v) :: rest)
    = parseFrom lower (setTitle st v) rest /\
  parseFrom lower st ["--type"; v]
    = LoopDone {| notificationType := v; timeout := timeout st;
                  autoClose := autoClose st; customTitle := customTitle st;
                  message := message st |} /\
  parseFrom lower st ["--title"; v]
    = LoopDone {| notificationType := notificationType st;
                  timeout := timeout st; autoClose := autoClose st;
                  customTitle := v; message := message st |}.
Proof.
split; [apply parseFrom_type_flag; reflexivity|].
split; [apply parseFrom_type_flag; reflexivity|].
split; [apply parseFrom_type_eq|].
split; [apply parseFrom_title_flag; reflexivity|].
split; [apply parseFrom_title_flag; reflexivity|].
split; [apply parseFrom_title_eq|].
split.
- exact (parseFrom_type_flag st "--type" v [] eq_refl).
- exact (parseFrom_title_flag st "--title" v [] eq_refl).
Qed.

(** X2: a token that starts with a dash and is none of the flags the
    loop tests for is passed over without a trace; so are the
    single-dash [=] spellings of the four flags, whatever their value. *)
Theorem unrecognised_skipped st arg rest :
  (Strings.HasPrefix arg "-" = true -> recognised arg = false ->
   parseFrom lower st (arg :: rest) = parseFrom lower st rest) /\
  (forall v,
     parseFrom lower st (("-type=" +:+ v) :: rest) = parseFrom lower st rest /\
     parseFrom lower st (("-title=" +:+ v) :: rest) = parseFrom lower st rest /\
     parseFrom lower st (("-timeout=" +:+ v) :: rest) = parseFrom lower st rest /\
     parseFrom lower st (("-autoclose=" +:+ v) :: rest) = parseFrom lower st rest).
Proof.
split; [apply parseFrom_unrecognised|].
intros v. repeat split; apply parseFrom_unrecognised; reflexivity.
Qed.

End ParserMore.

Lemma unrecognised_skipped_witness :
  Strings.HasPrefix "--verbose" "-" = true /\ recognised "--verbose" = false /\
  parseArgs (fun s => s) ["--verbose"; "hello"; "-type=error"]
  = LoopDone (setMessage defaults "hello").
Proof.
split; [reflexivity|]. split; [reflexivity|].
unfold parseArgs.
rewrite (proj1 (unrecognised_skipped (fun s => s) defaults "--verbose"
                  ["hello"; "-type=error"]) eq_refl eq_refl).
reflexivity.
Defined.

Section ParserCompose.
Variable lower : string -> string.

(** An iteration at the head of a vector looks at one token, or at two
    when the first is a value-taking flag with a token after it. *)
Lemma step_app a rest post st :
  (takesValue a = true -> rest <> []) ->
  step lower (a :: rest ++ post) 0 st = step lower (a :: rest) 0 st.
Proof.
intros Hrest. destruct rest as [|v rest]; [|reflexivity].
destruct (takesValue a) eqn:Htv; [exfalso; apply Hrest; reflexivity|].
destruct (takesValue_false a Htv) as (F1 & F2 & F3 & F4).
unfold step. cbn [lookup list_lookup]. rewrite F1, F2, F3, F4. reflexivity.
Qed.

(** How far an iteration at the head of a vector moves the index. *)
Lemma step_width a rest st :
  step lower (a :: rest) 0 st = Stop LoopHelp \/
  exists st',
    step lower (a :: rest) 0 st
    = Next (if takesValue a then match rest with [] => 1 | _ => 2 end else 1)
           st'.
Proof.
destruct (takesValue a) eqn:Htv.
- apply takesValue_cases in Htv.
  repeat (apply elem_of_cons in Htv as [-> | Htv]);
    try (apply elem_of_nil in Htv; contradiction);
    right; destruct rest as [|v rest]; eexists; reflexivity.
- destruct (takesValue_false a Htv) as (F1 & F2 & F3 & F4).
  unfold step. cbn [lookup list_lookup]. rewrite F1, F2, F3, F4. cbn [andb].
  destruct (isHelp a); [left; reflexivity | right].
  repeat match goal with
         | |- context [if ?b then _ else _] => destruct b
         end; eexists; reflexivity.
Qed.

Lemma parse_composes_bounded n : forall pre post st st',
  (length pre <= n)%nat ->
  dangling pre = false ->
  parseFrom lower st pre = LoopDone st' ->
  parseFrom lower st (pre ++ post) = parseFrom lower st' post.
Proof.
induction n as [|n IH]; intros [|a rest] post st st' Hn Hd Hp;
  cbn [length] in Hn; try lia;
  try (rewrite parseFrom_nil in Hp; injection Hp as <-; reflexivity).
assert (Hrest : takesValue a = true -> rest <> []).
{ intros Htv ->. cbn [dangling] in Hd. rewrite Htv in Hd. discriminate. }
cbn [app]. rewrite parseFrom_cons in Hp |- *. rewrite (step_app _ _ _ _ Hrest).
destruct (step_width a rest st) as [Hs | (st1 & Hs)]; rewrite Hs in Hp |- *;
  [discriminate|].
cbn [dangling] in Hd.
destruct (takesValue a) eqn:Htv.
- destruct rest as [|v rest]; [discriminate|].
  cbn [drop] in Hp |- *. apply IH; [cbn [length] in Hn; lia | exact Hd | exact Hp].
- cbn [drop] in Hp |- *. apply IH; [lia | exact Hd | exact Hp].
Qed.

(** X3: parsing composes.  When the loop runs over a vector [pre] to its
    end, and [pre] does not end on a value-taking flag left without its
    value, the loop over [pre ++ post] is the loop over [post] entered in
    the state [pre] left. *)
Theorem parse_composes pre post st st' :
  dangling pre = false ->
  parseFrom lower st pre = LoopDone st' ->
  parseFrom lower st (pre ++ post) = parseFrom lower st' post.
Proof. apply (parse_composes_bounded (length pre)). lia. Qed.

(** The loop over the tokens of one option applies the option. *)
Lemma parseFrom_option o st rest :
  wellFormed o ->
  parseFrom lower st (tokens o ++ rest) = parseFrom lower (applyOption lower st o) rest.
Proof.
destruct o as [v|v|v|v|m]; cbn [tokens app applyOption wellFormed]; intros Hwf.
- apply parseFrom_type_flag. reflexivity.
- apply parseFrom_title_flag. reflexivity.
- apply parseFrom_timeout_flag. reflexivity.
- apply parseFrom_autoclose_flag. reflexivity.
- apply parseFrom_positional, Hwf.
Qed.

Lemma applyOption_commute o1 o2 st :
  field o1 <> field o2 ->
  applyOption lower (applyOption lower st o1) o2
  = applyOption lower (applyOption lower st o2) o1.
Proof.
destruct o1, o2; cbn [field applyOption]; intros Hf;
  try (exfalso; apply Hf; reflexivity);
  unfold assignTimeout; try destruct (Strconv.Atoi _); reflexivity.
Qed.

Lemma applyOption_override o1 o2 st :
  field o1 = field o2 ->
  (forall v, o2 = OptTimeout v -> Strconv.Atoi v <> None) ->
  applyOption lower (applyOption lower st o1) o2 = applyOption lower st o2.
Proof.
destruct o1 as [v1|v1|v1|v1|m1], o2 as [v2|v2|v2|v2|m2];
  cbn [field applyOption]; intros Hf Hv; try discriminate; try reflexivity.
specialize (Hv v2 eq_refl). unfold assignTimeout.
destruct (Strconv.Atoi v2); [|contradiction].
destruct (Strconv.Atoi v1); reflexivity.
Qed.

(** X4: two options that assign different variables can be given in
    either order, the message among them. *)
Theorem options_commute o1 o2 st rest :
  wellFormed o1 -> wellFormed o2 -> field o1 <> field o2 ->
  parseFrom lower st (tokens o1 ++ tokens o2 ++ rest)
  = parseFrom lower st (tokens o2 ++ tokens o1 ++ rest).
Proof.
intros H1 H2 Hf.
rewrite !parseFrom_option by assumption.
rewrite (applyOption_commute _ _ _ Hf). reflexivity.
Qed.

(** X5: of two options that assign the same variable the later one
    wins, unless it is a timeout Atoi rejects (which leaves the earlier
    one in force, by C4). *)
Theorem options_later_wins o1 o2 st rest :
  wellFormed o1 -> wellFormed o2 -> field o1 = field o2 ->
  (forall v, o2 = OptTimeout v -> Strconv.Atoi v <> None) ->
  parseFrom lower st (tokens o1 ++ tokens o2 ++ rest)
  = parseFrom lower st (tokens o2 ++ rest).
Proof.
intros H1 H2 Hf Hv.
rewrite !parseFrom_option by assumption.
rewrite (applyOption_override _ _ _ Hf Hv). reflexivity.
Qed.

End ParserCompose.

Lemma parse_composes_witness :
  dangling ["hello"; "--type"; "error"] = false /\
  parseFrom (fun s => s) defaults ["hello"; "--type"; "error"]
  = LoopDone (setType (setMessage defaults "hello") "error") /\
  parseFrom (fun s => s) defaults (["hello"; "--type"; "error"] ++ ["--title"; "T"])
  = LoopDone (setTitle (setType (setMessage defaults "hello") "error") "T").
Proof.
split; [reflexivity|]. split; [reflexivity|].
rewrite (parse_composes (fun s => s) ["hello"; "--type"; "error"]
           ["--title"; "T"] defaults _ eq_refl eq_refl).
reflexivity.
Defined.

Lemma options_commute_witness :
  wellFormed (OptMessage "hello") /\ wellFormed (OptTimeout "10") /\
  field (OptMessage "hello") <> field (OptTimeout "10") /\
  parseFrom (fun s => s) defaults ["hello"; "--timeout"; "10"]
  = parseFrom (fun s => s) defaults ["--timeout"; "10"; "hello"].
Proof.
assert (H1 : wellFormed (OptMessage "hello")) by reflexivity.
assert (H2 : wellFormed (OptTimeout "10")) by exact I.
assert (H3 : field (OptMessage "hello") <> field (OptTimeout "10"))
  by discriminate.
split; [exact H1|]. split; [exact H2|]. split; [exact H3|].
exact (options_commute (fun s => s) (OptMessage "hello") (OptTimeout "10")
         defaults [] H1 H2 H3).
Defined.

Lemma options_later_wins_witness :
  field (OptType "error") = field (OptType "warning") /\
  parseFrom (fun s => s) defaults ["--type"; "error"; "--type"; "warning"; "m"]
  = parseFrom (fun s => s) defaults ["--type"; "warning"; "m"].
Proof.
split; [reflexivity|].
exact (options_later_wins (fun s => s) (OptType "error") (OptType "warning")
         defaults ["m"] I I eq_refl ltac:(discriminate)).
Defined.

(** * Further properties of [main] *)

Lemma validate_inr st n :
  validate st = inr n ->
  message st <> "" /\ notificationType st ∈ validTypes /\
  n = {| Type_ := notificationType st;
         Title := if String.eqb (customTitle st) ""
                  then Strings.Title (notificationType st) else customTitle st;
         Message := message st; Timeout := timeout st;
         AutoClose := autoClose st |}.
Proof.
unfold validate.
destruct (String.eqb_spec (message st) "") as [|Hm]; [discriminate|].
destruct (isValidType (notificationType st)) eqn:Hv; [|discriminate].
cbn [negb]. intros [= <-]. apply isValidType_elem in Hv. auto.
Qed.

Lemma validate_inl st out :
  validate st = inl out ->
  (message st = "" /\ out = messageRequired +:+ showHelp) \/
  (message st <> "" /\ out = invalidType (notificationType st)).
Proof.
unfold validate.
destruct (String.eqb_spec (message st) "") as [Hm|Hm].
- intros [= <-]. left. auto.
- destruct (negb (isValidType (notificationType st))); [|discriminate].
  intros [= <-]. right. auto.
Qed.

(** The capitalised name of each valid type. *)
Lemma Title_validTypes t :
  t ∈ validTypes ->
  (t = "success" /\ Strings.Title t = "Success") \/
  (t = "error" /\ Strings.Title t = "Error") \/
  (t = "info" /\ Strings.Title t = "Info") \/
  (t = "warning" /\ Strings.Title t = "Warning").
Proof.
unfold validTypes. rewrite !elem_of_cons, elem_of_nil.
intros [-> | [-> | [-> | [-> | []]]]]; auto 10.
Qed.

Section MainMore.
Variable lower : string -> string.

(** The only way an iteration ends the loop in bounds is a help token. *)
Lemma step_help args i st :
  step lower args i st = Stop LoopHelp ->
  exists a, args !! i = Some a /\ isHelp a = true.
Proof.
unfold step. destruct (args !! i) as [a|]; [|discriminate].
destruct (isHelp a) eqn:Hh; [eauto|].
repeat match goal with
       | |- context [if ?b then _ else _] => destruct b
       | |- context [match lookup ?k ?l with _ => _ end] =>
           destruct (lookup k l)
       end; discriminate.
Qed.

Lemma loop_help fuel : forall args i st,
  loop lower fuel args i st = LoopHelp ->
  exists a, a ∈ args /\ isHelp a = true.
Proof.
induction fuel as [|fuel IH]; intros args i st; cbn [loop];
  destruct (negb (i <? length args)%nat); try discriminate.
destruct (step lower args i st) as [r|i' st'] eqn:Hs.
- intros ->. destruct (step_help _ _ _ Hs) as (a & Ha & Hh).
  exists a. split; [eapply list_elem_of_lookup_2; exact Ha | exact Hh].
- apply IH.
Qed.

Lemma isHelp_cases a : isHelp a = true <-> a ∈ ["--help"; "-help"; "-h"].
Proof.
unfold isHelp. rewrite !orb_true_iff, !String.eqb_eq, !elem_of_cons, elem_of_nil.
tauto.
Qed.

(** X6: the usage text with exit code 0 and no call on the outside world
    is the outcome exactly when the loop stops at a help token; that
    needs a help token among the arguments, and a help token in the first
    place always does it, whatever follows. *)
Theorem help_outcome env args :
  (main lower env args = mkOutcome showHelp [] (Exited 0)
   <-> parseArgs lower args = LoopHelp) /\
  (parseArgs lower args = LoopHelp ->
   exists a, a ∈ args /\ a ∈ ["--help"; "-help"; "-h"]) /\
  (forall h rest, h ∈ ["--help"; "-help"; "-h"] ->
                  parseArgs lower (h :: rest) = LoopHelp).
Proof.
split; [|split].
- unfold main, finish.
  destruct (parseArgs lower args) as [st| | |]; split; try discriminate;
    try reflexivity.
  destruct (validate st) as [out|n]; [discriminate|].
  destruct (run (displayNotification env n)) as [[e|] log]; discriminate.
- intros (a & Ha & Hh)%loop_help. exists a. split; [exact Ha|].
  apply isHelp_cases, Hh.
- intros h rest Hh%isHelp_cases. unfold parseArgs. rewrite parseFrom_cons.
  unfold step. cbn [lookup list_lookup]. rewrite Hh. reflexivity.
Qed.

(** X7: [main] never panics: it ends with exit code 0 or 1.  It calls
    the outside world only through the dispatcher, on a request whose
    type is one of the four, whose message is not empty and whose title
    is not empty. *)
Theorem main_outcomes env args :
  (termination (main lower env args) = Exited 0 \/
   termination (main lower env args) = Exited 1) /\
  (calls (main lower env args) <> [] ->
   exists n, request lower args = Some n /\
             Type_ n ∈ ["success"; "error"; "info"; "warning"] /\
             Message n <> "" /\ Title n <> "" /\
             calls (main lower env args)
             = snd (run (displayNotification env n))).
Proof.
unfold main, request, finish.
destruct (loop_total lower (length args) args 0 defaults ltac:(lia))
  as [Hh | [st Hd]]; unfold parseArgs, parseFrom; rewrite ?Hh, ?Hd.
- split; [left; reflexivity | intros H; contradiction].
- destruct (validate st) as [out|n] eqn:Hv.
  + split; [right; reflexivity | intros H; contradiction].
  + destruct (validate_inr _ _ Hv) as (Hm & Ht & Hn).
    split.
    * destruct (run (displayNotification env n)) as [[e|] log]; auto.
    * intros _. exists n. split; [reflexivity|].
      assert (Htitle : Title n <> "").
      { subst n. cbn [Title].
        destruct (String.eqb_spec (customTitle st) "") as [_|Hc]; [|exact Hc].
        destruct (Title_validTypes _ Ht) as [[_ ->]|[[_ ->]|[[_ ->]|[_ ->]]]];
          discriminate. }
      subst n. cbn [Type_ Message] in *.
      repeat split; try assumption.
      destruct (run (displayNotification env _)) as [[e|] log]; reflexivity.
Qed.

(** X8: the title of the request is the custom title when one was given
    and is not empty; with no custom title, or an empty one, it is the
    type with its first letter in upper case. *)
Theorem title_default args st n :
  parseArgs lower args = LoopDone st ->
  request lower args = Some n ->
  (customTitle st <> "" -> Title n = customTitle st) /\
  (customTitle st = "" ->
     (Type_ n = "success" /\ Title n = "Success") \/
     (Type_ n = "error" /\ Title n = "Error") \/
     (Type_ n = "info" /\ Title n = "Info") \/
     (Type_ n = "warning" /\ Title n = "Warning")).
Proof.
intros Hp (st1 & Hp1 & Hv)%request_Some.
rewrite Hp in Hp1. injection Hp1 as <-.
destruct (validate_inr _ _ Hv) as (_ & Ht & ->). cbn [Title Type_].
split.
- intros Hc. apply String.eqb_neq in Hc. rewrite Hc. reflexivity.
- intros ->. cbn. apply Title_validTypes, Ht.
Qed.

(** X10: when the loop ends with no positional token, or with the empty
    string as the last one, [main] prints the message-required line and
    the usage text and exits with code 1 without calling anything,
    whatever else the arguments hold. *)
Theorem empty_message_rejected env args st :
  parseArgs lower args = LoopDone st ->
  default "" (last (positionals args)) = "" ->
  main lower env args = mkOutcome (messageRequired +:+ showHelp) [] (Exited 1).
Proof.
intros Hp Hl.
pose proof (parseFrom_message_last lower _ _ _ _ (le_n _) Hp) as Hm.
cbn [message defaults] in Hm. rewrite Hl in Hm.
unfold main, finish, validate. rewrite Hp, Hm. reflexivity.
Qed.

End MainMore.

Lemma title_default_witness :
  parseArgs (fun s => s) ["done"; "--title"; "My App"]
  = LoopDone (setTitle (setMessage defaults "done") "My App") /\
  request (fun s => s) ["done"; "--title"; "My App"]
  = Some {| Type_ := "info"; Title := "My App"; Message := "done";
            Timeout := 5; AutoClose := true |} /\
  Title {| Type_ := "info"; Title := "My App"; Message := "done";
           Timeout := 5; AutoClose := true |} = "My App" /\
  parseArgs (fun s => s) ["done"; "--type"; "warning"; "--title="]
  = LoopDone (setTitle (setType (setMessage defaults "done") "warning") "") /\
  request (fun s => s) ["done"; "--type"; "warning"; "--title="]
  = Some {| Type_ := "warning"; Title := "Warning"; Message := "done";
            Timeout := 5; AutoClose := true |}.
Proof.
split; [reflexivity|]. split; [reflexivity|]. split.
- exact (proj1 (title_default (fun s => s) ["done"; "--title"; "My App"]
                  (setTitle (setMessage defaults "done") "My App")
                  {| Type_ := "info"; Title := "My App"; Message := "done";
                     Timeout := 5; AutoClose := true |} eq_refl eq_refl)
               ltac:(discriminate)).
- split; reflexivity.
Defined.

Lemma empty_message_rejected_witness :
  parseArgs (fun s => s) ["hello"; "--type"; "error"; ""]
  = LoopDone (setMessage (setType (setMessage defaults "hello") "error") "") /\
  default "" (last (positionals ["hello"; "--type"; "error"; ""])) = "" /\
  termination (main (fun s => s) envAllOk ["hello"; "--type"; "error"; ""])
  = Exited 1.
Proof.
split; [reflexivity|]. split; [reflexivity|].
rewrite (empty_message_rejected (fun s => s) envAllOk
           ["hello"; "--type"; "error"; ""] _ eq_refl eq_refl).
reflexivity.
Defined.

(** * The range of the timeout *)

Lemma digitVal_range c d : Strconv.digitVal c = Some d -> 0 <= d <= 9.
Proof.
unfold Strconv.digitVal.
destruct (Z.ltb_spec 9 ((Z.of_N (Strings.byteVal c) - 48) mod 256));
  [discriminate|].
intros [= <-].
pose proof (Z.mod_pos_bound (Z.of_N (Strings.byteVal c) - 48) 256 ltac:(lia)).
lia.
Qed.

(** The value of a digit string of length k, read after [acc], is below
    (acc + 1) * 10^k. *)
Lemma digits_bound s : forall acc n,
  0 <= acc -> Strconv.digits acc s = Some n ->
  0 <= n < (acc + 1) * 10 ^ Z.of_nat (String.length s).
Proof.
induction s as [|c s IH]; intros acc n Hacc; cbn [Strconv.digits String.length].
- intros [= <-]. cbn. lia.
- destruct (Strconv.digitVal c) as [d|] eqn:Hd; [|discriminate].
  apply digitVal_range in Hd. intros Hn.
  apply IH in Hn; [|lia].
  rewrite Nat2Z.inj_succ, Z.pow_succ_r by lia.
  assert (0 < 10 ^ Z.of_nat (String.length s)) by (apply Z.pow_pos_nonneg; lia).
  nia.
Qed.

Lemma signMagnitude_bound s neg n :
  Strconv.signMagnitude s = Some (neg, n) ->
  0 <= n < 10 ^ Z.of_nat (String.length s).
Proof.
unfold Strconv.signMagnitude. destruct s as [|c rest]; [discriminate|].
destruct (Strconv.isSign c).
- destruct rest as [|c' rest']; [discriminate|].
  destruct (Strconv.digits 0 (String c' rest')) as [m|] eqn:Hm; [|discriminate].
  intros [= _ <-]. apply digits_bound in Hm; [|lia].
  change (String.length (String c (String c' rest')))
    with (S (String.length (String c' rest'))).
  rewrite Nat2Z.inj_succ, Z.pow_succ_r by lia.
  assert (0 < 10 ^ Z.of_nat (String.length (String c' rest')))
    by (apply Z.pow_pos_nonneg; lia).
  lia.
- destruct (Strconv.digits 0 (String c rest)) as [m|] eqn:Hm; [|discriminate].
  intros [= _ <-]. apply digits_bound in Hm; [|lia]. lia.
Qed.

(** What Atoi accepts fits the int of the target. *)
Lemma Atoi_range s n :
  Strconv.Atoi s = Some n -> Strconv.minInt <= n <= Strconv.maxInt.
Proof.
unfold Strconv.Atoi.
destruct ((0 <? String.length s) && (String.length s <? 19))%nat eqn:Hlen.
- destruct (Strconv.signMagnitude s) as [[neg m]|] eqn:Hs; [|discriminate].
  apply signMagnitude_bound in Hs.
  apply andb_true_iff in Hlen as [_ Hlen%Nat.ltb_lt].
  assert (10 ^ Z.of_nat (String.length s) <= 10 ^ 18)
    by (apply Z.pow_le_mono_r; lia).
  unfold Strconv.minInt, Strconv.maxInt.
  intros [= <-]. destruct neg; lia.
- destruct (Strconv.signMagnitude s) as [[neg m]|]; [|discriminate].
  destruct ((Strconv.minInt <=? (if neg then - m else m))
            && ((if neg then - m else m) <=? Strconv.maxInt)) eqn:Hr;
    [|discriminate].
  intros [= <-]. apply andb_true_iff in Hr as [H1%Z.leb_le H2%Z.leb_le]. lia.
Qed.

Section TimeoutRange.
Variable lower : string -> string.

Lemma step_timeoutFits args i st i' st' :
  timeoutFits st -> step lower args i st = Next i' st' -> timeoutFits st'.
Proof.
intros Hfit. unfold step. destruct (args !! i) as [a|]; [|discriminate].
assert (Hassign : forall v, timeoutFits (assignTimeout st v)).
{ intros v. unfold assignTimeout.
  destruct (Strconv.Atoi v) as [n|] eqn:Hv; [|exact Hfit].
  apply Atoi_range in Hv. exact Hv. }
repeat match goal with
       | |- context [if ?b then _ else _] => destruct b
       | |- context [match lookup ?k ?l with _ => _ end] =>
           destruct (lookup k l)
       end; try discriminate; intros [= _ <-];
  first [exact Hfit | apply Hassign].
Qed.

Lemma loop_timeoutFits fuel : forall args i st st',
  timeoutFits st -> loop lower fuel args i st = LoopDone st' -> timeoutFits st'.
Proof.
induction fuel as [|fuel IH]; intros args i st st' Hfit; cbn [loop];
  destruct (negb (i <? length args)%nat); try discriminate;
  try (intros [= <-]; exact Hfit).
destruct (step lower args i st) as [r|i1 st1] eqn:Hs.
- intros ->. destruct (step_in_bounds lower args i st) as [E|(?&?&E&_)].
  + destruct (Nat.ltb_spec i (length args)) as [|Hge]; [assumption|].
    unfold step in Hs. rewrite lookup_ge_None_2 in Hs by lia.
    discriminate.
  + rewrite E in Hs. discriminate.
  + rewrite E in Hs. discriminate.
- apply IH. eapply step_timeoutFits; eassumption.
Qed.

(** X9: the timeout the loop leaves always fits the 64-bit int of the
    target: it is the default or a value Atoi accepted, so no argument
    vector makes it wrap. *)
Theorem timeout_fits_int args st :
  parseArgs lower args = LoopDone st ->
  - 2 ^ 63 <= timeout st <= 2 ^ 63 - 1.
Proof.
intros Hp. apply (loop_timeoutFits _ _ _ _ _) in Hp; [exact Hp|].
unfold timeoutFits, Strconv.minInt, Strconv.maxInt. cbn. lia.
Qed.

End TimeoutRange.

Lemma timeout_fits_int_witness :
  parseArgs (fun s => s)
            ["m"; "--timeout"; "-9223372036854775808";
             "--timeout=99999999999999999999"]
  = LoopDone (setTimeout (setMessage defaults "m") (- 2 ^ 63)) /\
  - 2 ^ 63 <= timeout (setTimeout (setMessage defaults "m") (- 2 ^ 63))
            <= 2 ^ 63 - 1.
Proof.
split; [reflexivity|].
exact (timeout_fits_int (fun s => s)
         ["m"; "--timeout"; "-9223372036854775808";
          "--timeout=99999999999999999999"] _ eq_refl).
Defined.

(** * Further properties of the dispatcher *)

(** X14: [getIconPath] adds nothing to [createIcon]: same result, same
    calls.  The result carries the empty path with an error and the path
    of the type's icon file without one, and the file is closed exactly
    when it was created, whether or not the encoding worked. *)
Theorem getIconPath_is_createIcon env nType :
  run (getIconPath env nType) = run (createIcon env nType) /\
  (snd (fst (run (createIcon env nType))) <> None ->
   fst (fst (run (createIcon env nType))) = "") /\
  (snd (fst (run (createIcon env nType))) = None ->
   fst (fst (run (createIcon env nType))) = iconPathFor env nType) /\
  (EvClose (iconPathFor env nType) ∈ snd (run (createIcon env nType))
   <-> osCreate env (iconPathFor env nType) = None).
Proof.
unfold run, getIconPath, createIcon, iconPathFor.
cbv [mbind mret IO_bind IO_ret emit]. cbn [app].
destruct (osCreate env _) as [e|]; cbn [fst snd].
- repeat split; try congruence; try discriminate.
  intros H. apply elem_of_cons in H as [H|H]; [discriminate|].
  apply elem_of_nil in H. contradiction.
- destruct (pngEncode env _ _) as [e|]; cbn [fst snd];
    repeat split; try congruence; try discriminate;
    intros _; do 2 right; left.
Qed.

Lemma getIconPath_is_createIcon_witness :
  snd (fst (run (createIcon envCreateFails "info"))) <> None /\
  fst (fst (run (createIcon envCreateFails "info"))) = "" /\
  snd (fst (run (createIcon envAllOk "info"))) = None /\
  fst (fst (run (createIcon envAllOk "info"))) = "C:/Temp/notify_icon_info.png".
Proof.
assert (H1 : snd (fst (run (createIcon envCreateFails "info"))) <> None)
  by discriminate.
assert (H2 : snd (fst (run (createIcon envAllOk "info"))) = None)
  by reflexivity.
split; [exact H1|]. split.
- exact (proj1 (proj2 (getIconPath_is_createIcon envCreateFails "info")) H1).
- split; [exact H2|].
  exact (proj1 (proj2 (proj2 (getIconPath_is_createIcon envAllOk "info"))) H2).
Defined.


(** X12: the dispatcher removes a file only when the icon was created
    and encoded and the push succeeded, and then the icon file and
    nothing else; a file created but not encoded stays. *)
Theorem removal_exactly env n :
  removes (snd (run (displayNotification env n)))
  = match osCreate env (iconPathFor env (Type_ n)),
          pngEncode env (iconPathFor env (Type_ n)) (iconImage (Type_ n)),
          toastPush env (buildToast n (iconPathFor env (Type_ n))) with
    | None, None, None =>
        if String.eqb (iconPathFor env (Type_ n)) "" then []
        else [iconPathFor env (Type_ n)]
    | _, _, _ => []
    end.
Proof.
destruct (osCreate env (iconPathFor env (Type_ n))) as [e|] eqn:Hc.
- rewrite (display_create_failed _ _ _ Hc). cbv zeta.
  destruct (toastPush env _); reflexivity.
- destruct (pngEncode env (iconPathFor env (Type_ n)) (iconImage (Type_ n)))
    as [e|] eqn:He.
  + rewrite (display_encode_failed _ _ _ Hc He). cbv zeta.
    destruct (toastPush env _); reflexivity.
  + rewrite (display_icon_written _ _ Hc He). cbv zeta.
    destruct (toastPush env _); [reflexivity|].
    destruct (String.eqb _ _); reflexivity.
Qed.



(** * Further properties of the icon *)

Lemma foldl_preserves {S T : Type} (Q : S -> Prop) (f : S -> T -> S) l :
  forall a, (forall a b, Q a -> Q (f a b)) -> Q a -> Q (foldl f a l).
Proof.
induction l as [|b l IH]; intros a Hf Ha; cbn [foldl]; [exact Ha|].
apply IH; [exact Hf | apply Hf, Ha].
Qed.

Lemma SetRGBA_bytes img x y c :
  validColor c ->
  Forall (fun b => 0 <= b <= 255) (Pix img) ->
  Forall (fun b => 0 <= b <= 255) (Pix (SetRGBA img x y c)).
Proof.
intros (Hr & Hg & Hb & Ha) Hpix. unfold SetRGBA.
destruct (inRect img x y); [|exact Hpix]. cbn [Pix].
repeat apply Forall_insert; assumption.
Qed.

Lemma specColor_valid nType : validColor (specColor nType).
Proof.
unfold specColor, validColor.
repeat destruct (String.eqb _ _); cbn [R G B A]; lia.
Qed.

(** X15: every byte of the pixel buffer of an icon, for any type string,
    is within 0..255: the buffer is a slice of uint8 as it stands. *)
Theorem icon_bytes nType :
  Forall (fun b => 0 <= b <= 255) (Pix (iconImage nType)).
Proof.
unfold iconImage, drawIcon. rewrite iconEntryFor_color.
pose proof (specColor_valid nType) as Hc.
apply (foldl_preserves (fun img => Forall (fun b => 0 <= b <= 255) (Pix img))).
- intros img y Himg. unfold drawRow.
  apply (foldl_preserves (fun img => Forall (fun b => 0 <= b <= 255) (Pix img)));
    [|exact Himg].
  intros img' x Himg'. rewrite drawPixel_Set. apply SetRGBA_bytes; [|exact Himg'].
  unfold pixelColor. destruct (_ <=? _); [exact Hc|].
  unfold validColor, transparent. cbn [R G B A]. lia.
- unfold NewRGBA. cbn [Pix]. apply Forall_replicate. lia.
Qed.

Lemma pixel_at nType x y :
  0 <= x < 64 -> 0 <= y < 64 ->
  RGBAAt (iconImage nType) x y
  = if (x - 32) * (x - 32) + (y - 32) * (y - 32) <=? 28 * 28
    then specColor nType else transparent.
Proof.
intros Hx Hy. unfold iconImage.
pose proof (drawIcon_pixels (Color (iconEntryFor nType)) x y Hx Hy) as Hp.
rewrite Hp, iconEntryFor_color. reflexivity.
Qed.

(** X16: the shape of the disc.  Its centre is the pixel (32, 32), so
    the rows and columns 0 to 3 and 61 to 63 are transparent, every
    pixel is the colour of the type or transparent, and the raster is
    unchanged by swapping x and y and by mirroring a coordinate c in
    1..63 to 64 - c. *)
Theorem icon_geometry nType x y :
  0 <= x < 64 -> 0 <= y < 64 ->
  (x < 4 \/ 60 < x \/ y < 4 \/ 60 < y ->
   RGBAAt (iconImage nType) x y = mkRGBA 0 0 0 0) /\
  (RGBAAt (iconImage nType) x y = specColor nType \/
   RGBAAt (iconImage nType) x y = mkRGBA 0 0 0 0) /\
  RGBAAt (iconImage nType) y x = RGBAAt (iconImage nType) x y /\
  (1 <= x -> RGBAAt (iconImage nType) (64 - x) y = RGBAAt (iconImage nType) x y) /\
  (1 <= y -> RGBAAt (iconImage nType) x (64 - y) = RGBAAt (iconImage nType) x y).
Proof.
intros Hx Hy. rewrite (pixel_at nType x y Hx Hy), (pixel_at nType y x Hy Hx).
split; [|split; [|split; [|split]]].
- intros Hband.
  destruct (Z.leb_spec ((x - 32) * (x - 32) + (y - 32) * (y - 32)) (28 * 28))
    as [Hin|]; [exfalso | reflexivity].
  pose proof (Z.square_nonneg (x - 32)). pose proof (Z.square_nonneg (y - 32)).
  destruct Hband as [Hb|[Hb|[Hb|Hb]]].
  + assert (29 * 29 <= (x - 32) * (x - 32)) by nia. lia.
  + assert (29 * 29 <= (x - 32) * (x - 32)) by nia. lia.
  + assert (29 * 29 <= (y - 32) * (y - 32)) by nia. lia.
  + assert (29 * 29 <= (y - 32) * (y - 32)) by nia. lia.
- destruct (_ <=? _); auto.
- rewrite (Z.add_comm ((y - 32) * (y - 32))). reflexivity.
- intros H1. rewrite (pixel_at nType (64 - x) y) by lia.
  replace ((64 - x - 32) * (64 - x - 32)) with ((x - 32) * (x - 32)) by ring.
  reflexivity.
- intros H1. rewrite (pixel_at nType x (64 - y)) by lia.
  replace ((64 - y - 32) * (64 - y - 32)) with ((y - 32) * (y - 32)) by ring.
  reflexivity.
Qed.

Lemma icon_geometry_witness :
  0 <= 61 < 64 /\ 0 <= 32 < 64 /\
  RGBAAt (iconImage "error") 61 32 = mkRGBA 0 0 0 0 /\
  RGBAAt (iconImage "error") 3 32 = RGBAAt (iconImage "error") 61 32.
Proof.
split; [lia|]. split; [lia|]. split.
- exact (proj1 (icon_geometry "error" 61 32 ltac:(lia) ltac:(lia))
           ltac:(lia)).
- exact (proj1 (proj2 (proj2 (proj2 (icon_geometry "error" 61 32
                  ltac:(lia) ltac:(lia))))) ltac:(lia)).
Defined.

(** * The embedded icon *)

(** X17: [getEmbeddedIconPath] hands the one embedded payload, that of
    success, to the decoder for every type string, the other three valid
    types included.  A decoding error is returned with the empty path
    before anything is written; otherwise the bytes go to the file
    notify_icon_<type>_embed.png of the scratch directory with mode 0644,
    and the path is returned unless the write fails. *)
Theorem embedded_icon_always_success env eenv nType :
  getEmbeddedIconPath env eenv nType
  = match DecodeString eenv embeddedSuccess with
    | inr e => (("", Some e), [])
    | inl imgData =>
        match osWriteFile eenv
                (Join env (TempDir env) ("notify_icon_" +:+ nType +:+ "_embed.png"))
                imgData 420 with
        | Some e =>
            (("", Some e),
             [WriteFile (Join env (TempDir env)
                              ("notify_icon_" +:+ nType +:+ "_embed.png"))
                        imgData 420])
        | None =>
            ((Join env (TempDir env) ("notify_icon_" +:+ nType +:+ "_embed.png"),
              None),
             [WriteFile (Join env (TempDir env)
                              ("notify_icon_" +:+ nType +:+ "_embed.png"))
                        imgData 420])
        end
    end.
Proof.
unfold getEmbeddedIconPath, embeddedIcons.
rewrite (lookup_insert_eq (M:=gmap string)). cbn [default].
destruct (decide (nType = "success")) as [->|Hne].
- rewrite lookup_insert_eq. reflexivity.
- rewrite lookup_insert_ne, lookup_empty by congruence. reflexivity.
Qed.

(** * Instances *)

Lemma help_outcome_witness :
  parseArgs (fun s => s) ["hello"; "--type"; "bogus"; "-h"; "--title"] = LoopHelp /\
  main (fun s => s) envAllOk ["hello"; "--type"; "bogus"; "-h"; "--title"]
  = mkOutcome showHelp [] (Exited 0).
Proof.
split; [reflexivity|].
exact (proj2 (proj1 (help_outcome (fun s => s) envAllOk
                       ["hello"; "--type"; "bogus"; "-h"; "--title"]))
         eq_refl).
Defined.

Lemma main_outcomes_witness :
  calls (main (fun s => s) envAllOk ["Build complete"; "--type"; "success"]) <> [] /\
  exists n,
    request (fun s => s) ["Build complete"; "--type"; "success"] = Some n /\
    Message n <> "" /\ Title n <> "".
Proof.
assert (H : calls (main (fun s => s) envAllOk
                     ["Build complete"; "--type"; "success"]) <> []).
{ rewrite (main_dispatch (fun s => s) envAllOk
             ["Build complete"; "--type"; "success"] sampleRequest eq_refl),
    (display_icon_written envAllOk sampleRequest eq_refl eq_refl).
  discriminate. }
split; [exact H|].
destruct (proj2 (main_outcomes (fun s => s) envAllOk
                   ["Build complete"; "--type"; "success"]) H)
  as (n & Hr & _ & Hm & Ht & _).
exists n. auto.
Defined.


(** * From the command line to the toast *)

Lemma main_calls lower env args n :
  request lower args = Some n ->
  calls (main lower env args) = snd (run (displayNotification env n)).
Proof.
intros Hr. rewrite (main_dispatch _ env _ _ Hr).
destruct (fst (run (displayNotification env n))); reflexivity.
Qed.

(** X18: a run that gets as far as a request pushes exactly one toast,
    whatever the outside world answers: its body is the last positional
    token, its title the title of the request, and it carries the fixed
    application id and the protocol activation with the argument
    dismiss. *)
Theorem one_toast_per_run lower env args n :
  request lower args = Some n ->
  exists t,
    pushes (calls (main lower env args)) = [t] /\
    Some (ToastMessage t) = last (positionals args) /\
    ToastTitle t = Title n /\
    AppID t = "Notify CLI" /\
    ActivationType t = "protocol" /\ ActivationArguments t = "dismiss".
Proof.
intros Hr. rewrite (main_calls _ env _ _ Hr).
destruct (display_one_push env n) as [p Hp].
exists (buildToast n p). split; [exact Hp|].
assert (Hmsg : Some (Message n) = last (positionals args)).
{ pose proof (request_message_last _ _ _ Hr) as Hm.
  destruct (request_Some _ _ _ Hr) as (st & _ & Hv).
  destruct (validate_inr _ _ Hv) as (Hne & _ & Hn).
  rewrite (validate_message _ _ Hv) in Hm.
  destruct (last (positionals args)) as [m|]; cbn [default] in Hm;
    [rewrite (validate_message _ _ Hv), Hm; reflexivity | contradiction]. }
unfold buildToast. destruct (negb (AutoClose n)); cbn; auto.
Qed.

Lemma one_toast_per_run_witness :
  request (fun s => s) ["first"; "--title"; "T"; "second"]
  = Some {| Type_ := "info"; Title := "T"; Message := "second";
            Timeout := 5; AutoClose := true |} /\
  exists t,
    pushes (calls (main (fun s => s) envCreateFails
                     ["first"; "--title"; "T"; "second"])) = [t] /\
    ToastTitle t = "T" /\
    Some (ToastMessage t) = Some "second".
Proof.
split; [reflexivity|].
destruct (one_toast_per_run (fun s => s) envCreateFails
            ["first"; "--title"; "T"; "second"] _ eq_refl)
  as (t & Hp & Hm & Ht & _).
exists t. split; [exact Hp|]. split; [exact Ht | exact Hm].
Defined.
